(** * HabibiBloxberg: the squares-grid background and the caching service worker

    A shallow embedding of the two stateful pieces of the site:

    - [Grid]: the [SquaresAnimation] class (scrolling grid offset, draw loop,
      pointer-to-cell mapping, resize, constructor defaults);
    - [ServiceWorker]: the install / fetch / activate handlers of [sw.js] over
      an explicit model of the browser's cache storage.

    Numbers.  JavaScript numbers are IEEE 754 binary64 values.  They are
    modelled by the standard library's [spec_float] at precision 53 and
    maximal exponent 1024: [+], [-], [*] and [/] are its correctly rounded
    operations, with both zeros, both infinities and NaN.  The remainder
    [%], [Math.floor], [Math.ceil] and [Math.max], which that library does
    not provide, are defined here from the exact value of their arguments;
    their results are exactly representable, so no rounding is involved.

    Loops.  The draw loops are bounded by the canvas only through a
    floating-point comparison, and need not end (a negative [squareSize],
    or a loop variable so large that adding [squareSize] no longer changes
    it).  They are run on fuel: [None] stands for a call that has not
    returned within the given number of iterations.

    Promises.  The service worker's promise chains are run sequentially
    against an explicit world (cache storage and network log); a detached
    chain is run to completion before the event that started it is over. *)

From Stdlib Require Import ZArith Lia List String Bool SpecFloat.
From stdpp Require Import gmap strings list fin_maps.

(** ** JavaScript numbers *)

Module JSNum.

Local Open Scope Z_scope.

(** A Number: an IEEE 754 binary64 value. *)
Definition number : Type := spec_float.

Definition prec : Z := 53.
Definition emax : Z := 1024.

Definition NaN : number := S754_nan.

(** The arithmetic operators. *)
Definition js_add : number -> number -> number := SFadd prec emax.
Definition js_sub : number -> number -> number := SFsub prec emax.
Definition js_mul : number -> number -> number := SFmul prec emax.
Definition js_div : number -> number -> number := SFdiv prec emax.

(** [a < b], [a <= b] and [a === b]: all false when an operand is NaN;
    the two zeros are equal. *)
Definition js_lt : number -> number -> bool := SFltb.
Definition js_le : number -> number -> bool := SFleb.
Definition js_eq : number -> number -> bool := SFeqb.

(** The Number nearest to [m * 2^e] (ties to even): [m * 2^e] itself when
    that is representable. *)
Definition dyadic (m e : Z) : number := binary_normalize prec emax m e false.

(** The exponent a Number of magnitude [z * 2^e] is stored with, for a
    positive integer [z]. *)
Definition stored_exponent (z e : Z) : Z :=
  fexp prec emax (Z.log2 z + 1 + e).

(** An integer literal. *)
Definition of_Z (z : Z) : number := dyadic z 0.

(** The decimal literal [m / 10^k], for [m] and [10^k] below [2^53]: both
    are then exact and the quotient is rounded once, to the nearest Number. *)
Definition decimal (m : Z) (k : nat) : number :=
  js_div (of_Z m) (of_Z (10 ^ Z.of_nat k)).

(** [Math.floor]: NaN, the infinities and the zeros are returned as they
    are, and so is a finite number whose exponent is not negative (it is an
    integer).  The result of rounding down is an integer no larger in
    magnitude than [2^53], hence exact; a zero result keeps the sign. *)
Definition math_floor (x : number) : number :=
  match x with
  | S754_finite s m e =>
      if 0 <=? e then x
      else binary_normalize prec emax (cond_Zopp s (Zpos m) / 2 ^ (- e)) 0 s
  | _ => x
  end.

(** [Math.ceil], likewise: [Math.ceil(-0.5)] is [-0]. *)
Definition math_ceil (x : number) : number :=
  match x with
  | S754_finite s m e =>
      if 0 <=? e then x
      else
        binary_normalize prec emax
          (- (cond_Zopp (negb s) (Zpos m) / 2 ^ (- e))) 0 s
  | _ => x
  end.

(** Rounding towards zero, as the host does when a number is stored in an
    integer attribute. *)
Definition trunc_Z (x : number) : Z :=
  match x with
  | S754_finite s m e =>
      if 0 <=? e then cond_Zopp s (Zpos m) * 2 ^ e
      else Z.quot (cond_Zopp s (Zpos m)) (2 ^ (- e))
  | _ => 0
  end.

(** [Math.max(a, b)]: NaN when either is NaN; [+0] is larger than [-0]. *)
Definition math_max (a b : number) : number :=
  match SFcompare a b with
  | None => NaN
  | Some Lt => b
  | Some Gt => a
  | Some Eq => match a with S754_zero true => b | _ => a end
  end.

(** [n % d]: NaN when an operand is NaN, [n] is infinite or [d] is a zero;
    [n] when [d] is infinite or [n] is a zero; otherwise [n - d * q] for
    the integer quotient [q] rounded towards zero, which is exact and has
    the sign of [n] (a zero remainder of a negative [n] is [-0]). *)
Definition js_rem (n d : number) : number :=
  match n, d with
  | S754_nan, _ | _, S754_nan => NaN
  | S754_infinity _, _ => NaN
  | _, S754_zero _ => NaN
  | _, S754_infinity _ => n
  | S754_zero _, _ => n
  | S754_finite sn mn en, S754_finite _ md ed =>
      let e := Z.min en ed in
      let a := Zpos mn * 2 ^ (en - e) in
      let b := Zpos md * 2 ^ (ed - e) in
      binary_normalize prec emax (cond_Zopp sn (a mod b)) e sn
  end.

(** Truthiness of a Number: the zeros and NaN are false. *)
Definition truthy_number (x : number) : bool :=
  match x with
  | S754_zero _ | S754_nan => false
  | _ => true
  end.

(** A zero, a negative finite Number or [-Infinity]. *)
Definition nonpositive (x : number) : bool :=
  match x with
  | S754_zero _ => true
  | S754_finite s _ _ => s
  | S754_infinity s => s
  | S754_nan => false
  end.

(** The literal [0.1]. *)
Definition tenth : number := Eval vm_compute in decimal 1 1.

(** *** Exact values

    A finite Number is [m * 2^e] for integers [m] and [e]; the exact
    relations below are computed on these integers. *)

(** The exponent a Number is stored with (0 for the zeros). *)
Definition exponent (x : number) : Z :=
  match x with
  | S754_finite _ _ e => e
  | _ => 0
  end.

(** [x] as a multiple of [2^e], for [e] not above [x]'s own exponent. *)
Definition mantissa_at (e : Z) (x : number) : option Z :=
  match x with
  | S754_zero _ => Some 0
  | S754_finite s m ex =>
      if e <=? ex then Some (cond_Zopp s (Zpos m) * 2 ^ (ex - e)) else None
  | _ => None
  end.

(** [x] is the Number [a * 2^e]; [-0] stands for 0 as well as [+0]. *)
Definition represents (x : number) (a e : Z) : Prop :=
  x = dyadic a e \/ (a = 0 /\ x = S754_zero true).

(** [a] and [b] are finite and differ by an integer multiple of the finite,
    non-zero [m], as real numbers. *)
Definition congruent_mod (m a b : number) : bool :=
  let e := Z.min (exponent m) (Z.min (exponent a) (exponent b)) in
  match mantissa_at e m, mantissa_at e a, mantissa_at e b with
  | Some zm, Some za, Some zb =>
      negb (zm =? 0) && (Z.rem (za - zb) zm =? 0)
  | _, _, _ => false
  end.

End JSNum.

(** ** The squares-grid animation ([SquaresAnimation]) *)

Module Grid.

Import JSNum.
Local Open Scope Z_scope.
Local Open Scope string_scope.

(** [gridOffset = { x, y }]. *)
Record point := { px : number; py : number }.

(** What [canvas.getBoundingClientRect()] returns. *)
Record rect := {
  rect_left : number; rect_top : number;
  rect_width : number; rect_height : number }.

(** The part of a mouse event the handlers read. *)
Record mouse_event := { clientX : number; clientY : number }.

(** The canvas element handed to the constructor. *)
Record canvas := { cwidth : number; cheight : number }.

(** A numeric option as a caller may pass it: a Number (NaN included), or
    one of the other values JavaScript treats as false. *)
Inductive jsarg : Type :=
| ArgUndefined
| ArgNull
| ArgFalse
| ArgEmptyString
| ArgNum (x : number).

(** Truthiness of a numeric option: only a Number other than the zeros and
    NaN is true. *)
Definition truthy (a : jsarg) : bool :=
  match a with
  | ArgNum x => truthy_number x
  | _ => false
  end.

(** [a || d] for a numeric option. *)
Definition num_or (a : jsarg) (d : number) : number :=
  match a with
  | ArgNum x => if truthy_number x then x else d
  | _ => d
  end.

(** [a || d] for a string option ([None] is [undefined]; the empty string
    is false as well). *)
Definition str_or (a : option string) (d : string) : string :=
  match a with
  | Some s => if String.eqb s "" then d else s
  | None => d
  end.

Record options := {
  opt_direction : option string;
  opt_speed : jsarg;
  opt_borderColor : option string;
  opt_squareSize : jsarg;
  opt_hoverFillColor : option string }.

(** The fields of a [SquaresAnimation] instance. *)
Record SquaresAnimation := {
  canvas_width : number;
  canvas_height : number;
  animationId : option positive;
  direction : string;
  speed : number;
  borderColor : string;
  squareSize : number;
  hoverFillColor : string;
  numSquaresX : number;
  numSquaresY : number;
  gridOffset : point;
  hoveredSquare : option (number * number) }.

Definition with_canvas (w h : number) (st : SquaresAnimation)
  : SquaresAnimation :=
  {| canvas_width := w; canvas_height := h;
     animationId := animationId st; direction := direction st;
     speed := speed st; borderColor := borderColor st;
     squareSize := squareSize st; hoverFillColor := hoverFillColor st;
     numSquaresX := numSquaresX st; numSquaresY := numSquaresY st;
     gridOffset := gridOffset st; hoveredSquare := hoveredSquare st |}.

Definition with_numSquares (nx ny : number) (st : SquaresAnimation)
  : SquaresAnimation :=
  {| canvas_width := canvas_width st; canvas_height := canvas_height st;
     animationId := animationId st; direction := direction st;
     speed := speed st; borderColor := borderColor st;
     squareSize := squareSize st; hoverFillColor := hoverFillColor st;
     numSquaresX := nx; numSquaresY := ny;
     gridOffset := gridOffset st; hoveredSquare := hoveredSquare st |}.

Definition with_gridOffset (p : point) (st : SquaresAnimation) : SquaresAnimation :=
  {| canvas_width := canvas_width st; canvas_height := canvas_height st;
     animationId := animationId st; direction := direction st;
     speed := speed st; borderColor := borderColor st;
     squareSize := squareSize st; hoverFillColor := hoverFillColor st;
     numSquaresX := numSquaresX st; numSquaresY := numSquaresY st;
     gridOffset := p; hoveredSquare := hoveredSquare st |}.

Definition with_hoveredSquare (h : option (number * number))
    (st : SquaresAnimation) : SquaresAnimation :=
  {| canvas_width := canvas_width st; canvas_height := canvas_height st;
     animationId := animationId st; direction := direction st;
     speed := speed st; borderColor := borderColor st;
     squareSize := squareSize st; hoverFillColor := hoverFillColor st;
     numSquaresX := numSquaresX st; numSquaresY := numSquaresY st;
     gridOffset := gridOffset st; hoveredSquare := h |}.

Definition with_animationId (a : option positive) (st : SquaresAnimation)
  : SquaresAnimation :=
  {| canvas_width := canvas_width st; canvas_height := canvas_height st;
     animationId := a; direction := direction st;
     speed := speed st; borderColor := borderColor st;
     squareSize := squareSize st; hoverFillColor := hoverFillColor st;
     numSquaresX := numSquaresX st; numSquaresY := numSquaresY st;
     gridOffset := gridOffset st; hoveredSquare := hoveredSquare st |}.

(** The configuration keys [updateConfig] is meant for; an absent key is
    [None].  [Object.assign] copies present keys as they are, without the
    constructor's defaults. *)
Record config_patch := {
  new_direction : option string;
  new_speed : option number;
  new_borderColor : option string;
  new_squareSize : option number;
  new_hoverFillColor : option string }.

Definition updateConfig (p : config_patch) (st : SquaresAnimation)
  : SquaresAnimation :=
  {| canvas_width := canvas_width st; canvas_height := canvas_height st;
     animationId := animationId st;
     direction := default (direction st) (new_direction p);
     speed := default (speed st) (new_speed p);
     borderColor := default (borderColor st) (new_borderColor p);
     squareSize := default (squareSize st) (new_squareSize p);
     hoverFillColor := default (hoverFillColor st) (new_hoverFillColor p);
     numSquaresX := numSquaresX st; numSquaresY := numSquaresY st;
     gridOffset := gridOffset st; hoveredSquare := hoveredSquare st |}.

(** *** Drawing *)

(** One iteration of the nested draw loop: the loop variables' cell index
    (as compared with [hoveredSquare]) and the corner the cell is drawn at. *)
Record cell := {
  cell_ix : number; cell_iy : number; cell_x : number; cell_y : number }.

(** Calls made on the 2D context.  The overlay is the radial gradient
    centred at [(cx, cy)] filled over the [w] by [h] surface; its radius
    goes through [Math.pow] and [Math.sqrt] and is not computed. *)
Inductive draw_op : Type :=
| ClearRect (x y w h : number)
| FillRect (style : string) (x y w h : number)
| StrokeRect (style : string) (x y w h : number)
| FillOverlay (cx cy w h : number).

(** [for (let v = start; v < bound; v += step) body(v)]: what the bodies
    produce, in order; [None] when a body does not return or the loop has
    not ended after [fuel] tests of its condition. *)
Fixpoint for_loop {A : Type} (fuel : nat) (v bound step : number)
    (body : number -> option (list A)) : option (list A) :=
  match fuel with
  | O => None
  | S f =>
      if js_lt v bound then
        match body v with
        | Some out =>
            match for_loop f (js_add v step) bound step body with
            | Some rest => Some (out ++ rest)%list
            | None => None
            end
        | None => None
        end
      else Some []
  end.

Definition startX (st : SquaresAnimation) : number :=
  js_mul (math_floor (js_div (px (gridOffset st)) (squareSize st)))
         (squareSize st).

Definition startY (st : SquaresAnimation) : number :=
  js_mul (math_floor (js_div (py (gridOffset st)) (squareSize st)))
         (squareSize st).

(** The loop body's view of the cell at loop variables [x], [y]. *)
Definition cell_at (st : SquaresAnimation) (x y : number) : cell :=
  {| cell_ix := math_floor (js_div (js_sub x (startX st)) (squareSize st));
     cell_iy := math_floor (js_div (js_sub y (startY st)) (squareSize st));
     cell_x := js_sub x (js_rem (px (gridOffset st)) (squareSize st));
     cell_y := js_sub y (js_rem (py (gridOffset st)) (squareSize st)) |}.

(** The cells visited by the nested loops, columns outermost. *)
Definition grid_cells (fuel : nat) (st : SquaresAnimation)
  : option (list cell) :=
  for_loop fuel (startX st)
    (js_add (canvas_width st) (squareSize st)) (squareSize st)
    (fun x =>
       for_loop fuel (startY st)
         (js_add (canvas_height st) (squareSize st)) (squareSize st)
         (fun y => Some [cell_at st x y])).

(** The test guarding [fillRect]: [hoveredSquare] is set and both indices
    are strictly equal. *)
Definition is_hovered (st : SquaresAnimation) (c : cell) : bool :=
  match hoveredSquare st with
  | Some (hx, hy) => js_eq (cell_ix c) hx && js_eq (cell_iy c) hy
  | None => false
  end.

Definition draw_cell (st : SquaresAnimation) (c : cell) : list draw_op :=
  ((if is_hovered st c
    then [FillRect (hoverFillColor st) (cell_x c) (cell_y c)
                   (squareSize st) (squareSize st)]
    else [])
   ++ [StrokeRect (borderColor st) (cell_x c) (cell_y c)
                  (squareSize st) (squareSize st)])%list.

Definition drawGrid (fuel : nat) (st : SquaresAnimation)
  : option (list draw_op) :=
  let w := canvas_width st in
  let h := canvas_height st in
  match grid_cells fuel st with
  | Some cells =>
      Some ([ClearRect (of_Z 0) (of_Z 0) w h]
            ++ flat_map (draw_cell st) cells
            ++ [FillOverlay (js_div w (of_Z 2)) (js_div h (of_Z 2)) w h])%list
  | None => None
  end.

(** *** The per-frame update *)

Definition effectiveSpeed (st : SquaresAnimation) : number :=
  math_max (speed st) tenth.

(** The [switch] on [direction] for a step of [es]; an unknown direction
    moves nothing. *)
Definition moveBy (es : number) (st : SquaresAnimation) : point :=
  let sz := squareSize st in
  let o := gridOffset st in
  if String.eqb (direction st) "right" then
    {| px := js_rem (js_add (js_sub (px o) es) sz) sz; py := py o |}
  else if String.eqb (direction st) "left" then
    {| px := js_rem (js_add (js_add (px o) es) sz) sz; py := py o |}
  else if String.eqb (direction st) "up" then
    {| px := px o; py := js_rem (js_add (js_add (py o) es) sz) sz |}
  else if String.eqb (direction st) "down" then
    {| px := px o; py := js_rem (js_add (js_sub (py o) es) sz) sz |}
  else if String.eqb (direction st) "diagonal" then
    {| px := js_rem (js_add (js_sub (px o) es) sz) sz;
       py := js_rem (js_add (js_sub (py o) es) sz) sz |}
  else o.

(** The offset [updateAnimation] assigns: the step is [effectiveSpeed]. *)
Definition nextOffset (st : SquaresAnimation) : point :=
  moveBy (effectiveSpeed st) st.

(** The offset update alone, the part of [updateAnimation] before it
    draws. *)
Definition offsetUpdate (st : SquaresAnimation) : SquaresAnimation :=
  with_gridOffset (nextOffset st) st.

(** [updateAnimation]: move the offset, draw, and keep the handle [raf] that
    [requestAnimationFrame] returns for the next frame. *)
Definition updateAnimation (fuel : nat) (raf : positive) (st : SquaresAnimation)
  : option (SquaresAnimation * list draw_op) :=
  let st' := offsetUpdate st in
  match drawGrid fuel st' with
  | Some ops => Some (with_animationId (Some raf) st', ops)
  | None => None
  end.

(** [startAnimation]: cancelling a pending frame is the host's business;
    the instance then runs a frame at once. *)
Definition startAnimation (fuel : nat) (raf : positive) (st : SquaresAnimation)
  : option (SquaresAnimation * list draw_op) :=
  updateAnimation fuel raf st.

Definition stopAnimation (st : SquaresAnimation) : SquaresAnimation :=
  match animationId st with
  | Some _ => with_animationId None st
  | None => st
  end.

(** *** Pointer handlers *)

Definition handleMouseMove (r : rect) (e : mouse_event) (st : SquaresAnimation)
  : SquaresAnimation :=
  let mouseX := js_sub (clientX e) (rect_left r) in
  let mouseY := js_sub (clientY e) (rect_top r) in
  let hoveredSquareX :=
    math_floor
      (js_div (js_sub (js_add mouseX (px (gridOffset st))) (startX st))
              (squareSize st)) in
  let hoveredSquareY :=
    math_floor
      (js_div (js_sub (js_add mouseY (py (gridOffset st))) (startY st))
              (squareSize st)) in
  with_hoveredSquare (Some (hoveredSquareX, hoveredSquareY)) st.

Definition handleMouseLeave (st : SquaresAnimation) : SquaresAnimation :=
  with_hoveredSquare None st.

(** *** Sizing, construction and the event loop

    Assigning to [canvas.width] goes through the host: a browser keeps the
    attribute as an unsigned integer.  [canvas_dim] is that conversion; the
    development holds for any. *)

Section Host.

Variable canvas_dim : number -> number.

Definition resizeCanvas (r : rect) (st : SquaresAnimation) : SquaresAnimation :=
  let st1 :=
    with_canvas (canvas_dim (rect_width r)) (canvas_dim (rect_height r)) st in
  with_numSquares
    (js_add (math_ceil (js_div (canvas_width st1) (squareSize st1))) (of_Z 1))
    (js_add (math_ceil (js_div (canvas_height st1) (squareSize st1))) (of_Z 1))
    st1.

Definition handleResize (r : rect) (st : SquaresAnimation) : SquaresAnimation :=
  resizeCanvas r st.

(** [setupCanvas]: [dpr] is [window.devicePixelRatio]; the bounding
    rectangle is the same when [resizeCanvas] reads it again.  The scale
    and the styles it sets are not part of the state. *)
Definition setupCanvas (dpr : jsarg) (r : rect) (st : SquaresAnimation)
  : SquaresAnimation :=
  let d := num_or dpr (of_Z 1) in
  let st1 :=
    with_canvas (canvas_dim (js_mul (rect_width r) d))
                (canvas_dim (js_mul (rect_height r) d)) st in
  resizeCanvas r st1.

(** The fields as the constructor initialises them, before it sizes the
    canvas and starts the animation. *)
Definition initial (cv : canvas) (o : options) : SquaresAnimation :=
  {| canvas_width := cwidth cv; canvas_height := cheight cv;
     animationId := None;
     direction := str_or (opt_direction o) "right";
     speed := num_or (opt_speed o) (of_Z 1);
     borderColor := str_or (opt_borderColor o) "#333";
     squareSize := num_or (opt_squareSize o) (of_Z 40);
     hoverFillColor := str_or (opt_hoverFillColor o) "#222";
     numSquaresX := of_Z 0; numSquaresY := of_Z 0;
     gridOffset := {| px := of_Z 0; py := of_Z 0 |};
     hoveredSquare := None |}.

(** The constructor: defaults, sizing, the listeners (which change no
    field), then the first frame at once.  It returns when that frame's
    drawing does. *)
Definition construct (fuel : nat) (cv : canvas) (o : options) (dpr : jsarg)
    (r : rect) (raf : positive) : option SquaresAnimation :=
  match startAnimation fuel raf (setupCanvas dpr r (initial cv o)) with
  | Some (st, _) => Some st
  | None => None
  end.

(** What can happen to a live instance. *)
Inductive event : Type :=
| Frame (raf : positive)
| MouseMove (r : rect) (e : mouse_event)
| MouseLeave
| Resize (r : rect)
| Configure (p : config_patch).

Definition handle (fuel : nat) (ev : event) (st : SquaresAnimation)
  : option SquaresAnimation :=
  match ev with
  | Frame raf =>
      match updateAnimation fuel raf st with
      | Some (st', _) => Some st'
      | None => None
      end
  | MouseMove r e => Some (handleMouseMove r e st)
  | MouseLeave => Some (handleMouseLeave st)
  | Resize r => Some (handleResize r st)
  | Configure p => Some (updateConfig p st)
  end.

(** A series of events, each handled once the one before has returned. *)
Fixpoint run (fuel : nat) (evs : list event) (st : SquaresAnimation)
  : option SquaresAnimation :=
  match evs with
  | [] => Some st
  | ev :: rest =>
      match handle fuel ev st with
      | Some st' => run fuel rest st'
      | None => None
      end
  end.

End Host.

(** *** Vocabulary of the statements, and sample instances *)

(** [n] consecutive offset updates. *)
Fixpoint offsetUpdates (n : nat) (st : SquaresAnimation) : SquaresAnimation :=
  match n with
  | O => st
  | S k => offsetUpdates k (offsetUpdate st)
  end.

(** Every offset update from [st] on is the [switch] applied with a step of
    [amount]. *)
Definition steps_by (amount : number) (st : SquaresAnimation) : Prop :=
  forall n : nat,
    nextOffset (offsetUpdates n st) = moveBy amount (offsetUpdates n st).

(** [0 <= v < sz], as JavaScript compares. *)
Definition in_range (sz v : number) : bool :=
  js_le (of_Z 0) v && js_lt v sz.

(** Both offset components lie in [[0, squareSize)]. *)
Definition offset_in_range (st : SquaresAnimation) : bool :=
  in_range (squareSize st) (px (gridOffset st))
  && in_range (squareSize st) (py (gridOffset st)).

(** A pointer at the centre of the square drawn for cell [c], on a surface
    whose bounding rectangle is [r]. *)
Definition cell_centre (r : rect) (st : SquaresAnimation) (c : cell)
  : mouse_event :=
  {| clientX :=
       js_add (js_add (rect_left r) (cell_x c))
              (js_div (squareSize st) (of_Z 2));
     clientY :=
       js_add (js_add (rect_top r) (cell_y c))
              (js_div (squareSize st) (of_Z 2)) |}.

(** The [k]-th cell [drawGrid] visits, counting from 0. *)
Definition drawn_cell (fuel : nat) (st : SquaresAnimation) (k : nat)
  : option cell :=
  match grid_cells fuel st with
  | Some cells => nth_error cells k
  | None => None
  end.

(** The cell the pointer handler reports for a pointer at the centre of the
    square drawn for [c]. *)
Definition hovered_at_centre (r : rect) (st : SquaresAnimation) (c : cell)
  : option (number * number) :=
  hoveredSquare (handleMouseMove r (cell_centre r st c) st).

(** The directions that move one component only. *)
Definition single_axis (d : string) : Prop :=
  d = "right" \/ d = "left" \/ d = "up" \/ d = "down".

(** The component a single-axis direction moves. *)
Definition moved_component (d : string) (p : point) : number :=
  if String.eqb d "right" || String.eqb d "left" then px p else py p.

(** [updateConfig({ speed: s })] and [updateConfig({ squareSize: s })]. *)
Definition set_speed (s : number) : config_patch :=
  {| new_direction := None; new_speed := Some s; new_borderColor := None;
     new_squareSize := None; new_hoverFillColor := None |}.

Definition set_squareSize (s : number) : config_patch :=
  {| new_direction := None; new_speed := None; new_borderColor := None;
     new_squareSize := Some s; new_hoverFillColor := None |}.

(** One offset update at speed [s], then one at speed [squareSize - s]. *)
Definition there_and_back (s : number) (st : SquaresAnimation)
  : SquaresAnimation :=
  let st1 := offsetUpdate (updateConfig (set_speed s) st) in
  offsetUpdate (updateConfig (set_speed (js_sub (squareSize st) s)) st1).

(** A stand-in for the browser's conversion of an assigned canvas
    dimension to an unsigned 32-bit integer: the fraction is dropped and
    the integer taken modulo [2^32]; NaN and the infinities give 0.  It is
    used in the examples only. *)
Definition browser_canvas_dim (x : number) : number :=
  of_Z (trunc_Z x mod 2 ^ 32).

(** Options with a direction, a speed and a square size. *)
Definition options_of (d : string) (s sz : number) : options :=
  {| opt_direction := Some d; opt_speed := ArgNum s;
     opt_borderColor := None; opt_squareSize := ArgNum sz;
     opt_hoverFillColor := None |}.

(** The options [initSpiralBackground] passes. *)
Definition site_options : options :=
  {| opt_direction := Some "diagonal"; opt_speed := ArgNum (decimal 8 1);
     opt_borderColor := Some "#333"; opt_squareSize := ArgNum (of_Z 40);
     opt_hoverFillColor := Some "#222" |}.

(** Bounding rectangles of the surface, and a canvas not yet sized. *)
Definition surface_800_600 : rect :=
  {| rect_left := of_Z 10; rect_top := of_Z 20;
     rect_width := of_Z 800; rect_height := of_Z 600 |}.

Definition surface_768_306 : rect :=
  {| rect_left := of_Z 0; rect_top := of_Z 0;
     rect_width := of_Z 768; rect_height := of_Z 306 |}.

Definition blank_canvas : canvas :=
  {| cwidth := of_Z 300; cheight := of_Z 150 |}.

Definition surface_100_50 : rect :=
  {| rect_left := of_Z 10; rect_top := of_Z 20;
     rect_width := of_Z 100; rect_height := of_Z 50 |}.

(** [new SquaresAnimation(canvas, o)] on a canvas whose bounding rectangle
    is [r], in a browser whose [devicePixelRatio] is not set. *)
Definition construct_on (r : rect) (fuel : nat) (o : options)
  : option SquaresAnimation :=
  construct browser_canvas_dim fuel blank_canvas o ArgUndefined r 1%positive.

(** A scroll to the right at 100 a frame over squares of 40. *)
Definition fast_options : options := options_of "right" (of_Z 100) (of_Z 40).

(** A scroll to the left at 20 a frame over squares of 40, and over squares
    of 12.7 at the default speed to the right. *)
Definition left_options : options := options_of "left" (of_Z 20) (of_Z 40).

Definition fractional_options : options :=
  {| opt_direction := None; opt_speed := ArgUndefined;
     opt_borderColor := None; opt_squareSize := ArgNum (decimal 127 1);
     opt_hoverFillColor := None |}.

(** Squares of -40 at the default speed to the right. *)
Definition negative_size_options : options :=
  options_of "right" (of_Z 1) (of_Z (-40)).

(** Speeds of 0, 0.05 and -5. *)
Definition zero_speed_options : options :=
  options_of "left" (of_Z 0) (of_Z 40).

Definition slow_speed_options : options :=
  options_of "left" (decimal 5 2) (of_Z 40).

Definition negative_speed_options : options :=
  options_of "left" (of_Z (-5)) (of_Z 40).

(** An instance scrolling in direction [d] over squares of [sz], with its
    offset at [(x, y)]. *)
Definition instance_at (d : string) (sz x y : number) : SquaresAnimation :=
  {| canvas_width := of_Z 800; canvas_height := of_Z 600; animationId := None;
     direction := d; speed := of_Z 1; borderColor := "#333";
     squareSize := sz; hoverFillColor := "#222";
     numSquaresX := of_Z 21; numSquaresY := of_Z 16;
     gridOffset := {| px := x; py := y |}; hoveredSquare := None |}.

(** The instance built from [left_options] once [updateConfig] has set
    [squareSize] to 16. *)
Definition reconfigured_instance (fuel : nat) : option SquaresAnimation :=
  match construct_on surface_100_50 fuel left_options with
  | Some st =>
      run browser_canvas_dim fuel [Configure (set_squareSize (of_Z 16))] st
  | None => None
  end.

(** The literals 0.2, 8.75, 0.25 and 0.0625, and the largest finite
    Number. *)
Definition fifth : number := decimal 2 1.
Definition eight_and_three_quarters : number := dyadic 35 (-2).
Definition quarter : number := dyadic 1 (-2).
Definition sixteenth : number := dyadic 1 (-4).
Definition max_value : number := dyadic (2 ^ 53 - 1) 971.

End Grid.

(** ** The caching service worker ([sw.js]) *)

Module ServiceWorker.

Local Open Scope Z_scope.
Local Open Scope string_scope.

(** *** Requests, responses and the network *)

(** [Response.type]. *)
Inductive response_type : Type :=
| Basic
| Cors
| Default
| Error
| Opaque
| OpaqueRedirect.

Record response := { status : Z; type : response_type; body : string }.

(** An intercepted request.  [origin] and [hostname] are the components
    [new URL(request.url)] extracts from [url]. *)
Record request := {
  method : string; url : string; origin : string; hostname : string }.

(** How a network fetch settles: the promise rejects, or it resolves with a
    response (the handler also guards against a missing one). *)
Inductive fetch_result : Type :=
| NetworkError
| Resolves (r : option response).

(** *** The browser's cache storage

    A generation is a named cache mapping request keys (URLs of GET
    requests) to responses; [caches] keeps the generations in creation
    order, which is the order [caches.match] searches them in. *)

Definition CacheStorage : Type := list (string * gmap string response).

Record world := { caches : CacheStorage; fetched : list string }.

(** The generation stored under a tag, if any. *)
Fixpoint generation (name : string) (cs : CacheStorage)
  : option (gmap string response) :=
  match cs with
  | [] => None
  | (n, c) :: rest => if String.eqb n name then Some c else generation name rest
  end.

(** [caches.open(name)]: creates an empty generation when none has the tag. *)
Definition storage_open (name : string) (cs : CacheStorage) : CacheStorage :=
  match generation name cs with
  | Some _ => cs
  | None => (cs ++ [(name, ∅)])%list
  end.

(** [caches.keys()]. *)
Definition storage_keys (cs : CacheStorage) : list string := map fst cs.

(** [caches.delete(name)]. *)
Definition storage_delete (name : string) (cs : CacheStorage) : CacheStorage :=
  List.filter (fun g => negb (String.eqb (fst g) name)) cs.

(** [caches.match(request)]: the first generation, in creation order, that
    holds the key answers. *)
Fixpoint storage_match (key : string) (cs : CacheStorage) : option response :=
  match cs with
  | [] => None
  | (_, c) :: rest =>
      match c !! key with
      | Some r => Some r
      | None => storage_match key rest
      end
  end.

(** [cache.put(request, response)] on the generation tagged [name]. *)
Definition storage_put (name key : string) (r : response) (cs : CacheStorage)
  : CacheStorage :=
  map (fun g => if String.eqb (fst g) name then (fst g, <[key := r]> (snd g))
                else g) cs.

(** *** Promises

    A promise is run against the world and either fulfils or rejects;
    [then_] is [.then] with a single callback, so a rejection skips it. *)

Inductive outcome (A : Type) : Type :=
| Fulfilled (a : A)
| Rejected.

Arguments Fulfilled {A} a.
Arguments Rejected {A}.

Definition promise (A : Type) : Type := world -> outcome A * world.

Definition resolve {A : Type} (a : A) : promise A := fun w => (Fulfilled a, w).

Definition then_ {A B : Type} (p : promise A) (f : A -> promise B) : promise B :=
  fun w =>
    match p w with
    | (Fulfilled a, w') => f a w'
    | (Rejected, w') => (Rejected, w')
    end.

Notation "'await' x <~ p 'in' q" := (then_ p (fun x => q))
  (at level 10, x name, p at level 100, q at level 200).

(** [Promise.all] over promises that are started in list order. *)
Fixpoint promise_all {A : Type} (ps : list (promise A)) : promise (list A) :=
  match ps with
  | [] => resolve []
  | p :: rest =>
      await a <~ p in await l <~ promise_all rest in resolve (a :: l)
  end.

(** [array.indexOf(x)]. *)
Fixpoint indexOf (l : list string) (x : string) : Z :=
  match l with
  | [] => -1
  | y :: rest =>
      if String.eqb y x then 0
      else let i := indexOf rest x in if Z.eqb i (-1) then -1 else i + 1
  end.

(** [s.includes(sub)]. *)
Fixpoint includes (sub s : string) : bool :=
  String.prefix sub s ||
  match s with
  | EmptyString => false
  | String _ s' => includes sub s'
  end.

(** An ok status, as the Fetch standard and HTTP call a successful
    response: 200 to 299. *)
Definition ok_status (s : Z) : bool := Z.leb 200 s && Z.leb s 299.

Section Worker.

(** The generation tag of the deployed worker, the worker's own origin
    ([self.location.origin]) and the network it talks to. *)
Variable CACHE_NAME : string.
Variable self_origin : string.
Variable net : string -> fetch_result.

Definition urlsToCache : list string :=
  [ "/";
    "/index-improved.html";
    "/style-improved.css";
    "/script-improved.js";
    "/spiral-animation.js";
    "https://fonts.googleapis.com/css2?family=Inter:wght@400;500;600;700;800&family=JetBrains+Mono:wght@400;500&display=swap" ].

(** **** Host operations as promises *)

(** The handle of an opened cache is its tag. *)
Definition caches_open (name : string) : promise string :=
  fun w =>
    (Fulfilled name,
     {| caches := storage_open name (caches w); fetched := fetched w |}).

Definition caches_keys : promise (list string) :=
  fun w => (Fulfilled (storage_keys (caches w)), w).

Definition caches_delete (name : string) : promise bool :=
  fun w =>
    (Fulfilled (bool_decide (is_Some (generation name (caches w)))),
     {| caches := storage_delete name (caches w); fetched := fetched w |}).

Definition caches_match (key : string) : promise (option response) :=
  fun w => (Fulfilled (storage_match key (caches w)), w).

Definition cache_put (cache key : string) (r : response) : promise unit :=
  fun w =>
    (Fulfilled tt,
     {| caches := storage_put cache key r (caches w); fetched := fetched w |}).

(** [fetch(url)]: every call reaches the network and is logged. *)
Definition fetch (u : string) : promise (option response) :=
  fun w =>
    let w' := {| caches := caches w; fetched := (fetched w ++ [u])%list |} in
    match net u with
    | NetworkError => (Rejected, w')
    | Resolves r => (Fulfilled r, w')
    end.

(** The response a seed fetch contributes, if it succeeded. *)
Definition seed_response (fr : fetch_result) : option response :=
  match fr with
  | Resolves (Some r) => if ok_status (status r) then Some r else None
  | _ => None
  end.

(** All seed responses, or [None] as soon as one fetch failed. *)
Fixpoint seed_responses (urls : list string)
  : option (list (string * response)) :=
  match urls with
  | [] => Some []
  | u :: rest =>
      match seed_response (net u), seed_responses rest with
      | Some r, Some l => Some ((u, r) :: l)
      | _, _ => None
      end
  end.

(** Modelled from the spec: [cache.addAll] is the browser's, not the
    repository's; the spec reads "fetch and store all of them under the
    current generation tag. If any fetch fails, the entire install operation
    fails (...) partial population must not occur".  All URLs are fetched;
    the entries are written only when every fetch succeeded. *)
Definition cache_addAll (cache : string) (urls : list string) : promise unit :=
  fun w =>
    let log := (fetched w ++ urls)%list in
    match seed_responses urls with
    | Some entries =>
        (Fulfilled tt,
         {| caches :=
              fold_left (fun cs e => storage_put cache (fst e) (snd e) cs)
                        entries (caches w);
            fetched := log |})
    | None => (Rejected, {| caches := caches w; fetched := log |})
    end.

(** **** The three handlers *)

(** The [install] listener: the promise handed to [event.waitUntil]. *)
Definition on_install : promise unit :=
  await cache <~ caches_open CACHE_NAME in
  cache_addAll cache urlsToCache.

Definition isAllowedOrigin (req : request) : bool :=
  String.eqb (origin req) self_origin
  || includes "googleapis.com" (hostname req)
  || includes "gstatic.com" (hostname req)
  || includes "fontawesome.com" (hostname req).

(** What the [fetch] listener does with the event: it returns without
    calling [respondWith] (the browser handles the request itself), or it
    answers with a promise. *)
Inductive disposition : Type :=
| PassThrough
| RespondWith (o : outcome (option response)).

(** The network branch of the [fetch] listener.  The detached
    [caches.open(...).then(cache.put)] chain is run to completion before the
    event is over. *)
Definition fetch_and_cache (req : request) : promise (option response) :=
  await response <~ fetch (url req) in
  match response with
  | None => resolve response
  | Some r =>
      if negb (Z.eqb (status r) 200)
         || match type r with Opaque => true | _ => false end
      then resolve response
      else
        await _ <~ (await cache <~ caches_open CACHE_NAME in
                    cache_put cache (url req) r) in
        resolve response
  end.

Definition on_fetch (req : request) (w : world) : disposition * world :=
  if negb (String.eqb (method req) "GET") then (PassThrough, w)
  else if negb (isAllowedOrigin req) then (PassThrough, w)
  else
    let p :=
      await response <~ caches_match (url req) in
      match response with
      | Some r => resolve (Some r)
      | None => fetch_and_cache req
      end in
    let (o, w') := p w in (RespondWith o, w').

(** The [activate] listener: the promise handed to [event.waitUntil].  A
    tag on the whitelist maps to [undefined] ([None]). *)
Definition on_activate : promise (list (option bool)) :=
  let cacheWhitelist := [CACHE_NAME] in
  await cacheNames <~ caches_keys in
  promise_all
    (map (fun cacheName =>
            if Z.eqb (indexOf cacheWhitelist cacheName) (-1)
            then (await b <~ caches_delete cacheName in resolve (Some b))
            else resolve None)
         cacheNames).

(** **** The worker's life cycle, as the browser drives it *)

Inductive phase : Type :=
| Installing
| Installed
| Activated
| Redundant.

(** Modelled from the spec: the browser's side of [event.waitUntil] on
    [install]; "the entire install operation fails and the new generation
    does not become eligible for activation".  A rejection discards the
    worker. *)
Definition install_event (w : world) : phase * world :=
  match on_install w with
  | (Fulfilled _, w') => (Installed, w')
  | (Rejected, w') => (Redundant, w')
  end.

(** [activate] is dispatched to an installed worker only. *)
Definition activate_event (ph : phase) (w : world) : phase * world :=
  match ph with
  | Installed => (Activated, snd (on_activate w))
  | _ => (ph, w)
  end.

(** A deployment: install, then activate. *)
Definition deploy (w : world) : phase * world :=
  let (ph, w') := install_event w in activate_event ph w'.

(** Intercepting a series of requests, one after the other. *)
Definition intercept_all (reqs : list request) (w : world) : world :=
  fold_left (fun w' req => snd (on_fetch req w')) reqs w.

End Worker.

(** *** Vocabulary of the statements, and sample worlds *)

(** The generations activation retains: those tagged [name]. *)
Definition keep_only (name : string) (cs : CacheStorage) : CacheStorage :=
  List.filter (fun g => String.eqb (fst g) name) cs.

(** The request is one the [fetch] listener leaves alone: it is not a GET,
    or its target is neither the worker's origin nor a host whose name
    contains one of the three allow-listed names. *)
Definition bypassed (self_origin : string) (req : request) : Prop :=
  method req <> "GET" \/
  (origin req <> self_origin /\
   includes "googleapis.com" (hostname req) = false /\
   includes "gstatic.com" (hostname req) = false /\
   includes "fontawesome.com" (hostname req) = false).

(** A response the [fetch] listener stores: status 200 and not opaque. *)
Definition cacheable (r : response) : Prop :=
  status r = 200 /\ type r <> Opaque.

(** Deleting, one after the other, the tags of [names] that differ from
    the current one. *)
Definition delete_stale (current : string) (names : list string)
    (cs : CacheStorage) : CacheStorage :=
  fold_left
    (fun acc n => if String.eqb current n then acc else storage_delete n acc)
    names cs.

(** The world with one more fetch on the log. *)
Definition logged (u : string) (w : world) : world :=
  {| caches := caches w; fetched := (fetched w ++ [u])%list |}.

(** The response the network gives a request, when it gives one. *)
Definition net_answer (net : string -> fetch_result) (req : request)
  : option response :=
  match net (url req) with
  | Resolves r => r
  | NetworkError => None
  end.

(** The tag [sw.js] deploys. *)
Definition CACHE_NAME_deployed : string := "habibibloxberg-v1".

Definition page_response (b : string) : response :=
  {| status := 200; type := Basic; body := b |}.

(** Three generations left by successive deployments, oldest first. *)
Definition three_generations : world :=
  {| caches :=
       [ ("v1", {[ "/" := page_response "one" ]});
         ("v2", {[ "/" := page_response "two" ]});
         ("v3", {[ "/" := page_response "three" ]}) ];
     fetched := [] |}.

Definition no_network (u : string) : fetch_result := NetworkError.

Definition empty_world : world := {| caches := []; fetched := [] |}.

Definition site_origin : string := "https://habibi.example".

(** A same-origin GET for a page that does not exist. *)
Definition missing_page : request :=
  {| method := "GET"; url := "https://habibi.example/missing";
     origin := "https://habibi.example"; hostname := "habibi.example" |}.

(** A same-origin GET for the stylesheet. *)
Definition stylesheet : request :=
  {| method := "GET"; url := "https://habibi.example/style-improved.css";
     origin := "https://habibi.example"; hostname := "habibi.example" |}.

(** A same-origin POST, and a GET to a host that is not allow-listed. *)
Definition form_post : request :=
  {| method := "POST"; url := "https://habibi.example/contact";
     origin := "https://habibi.example"; hostname := "habibi.example" |}.

Definition presence_poll : request :=
  {| method := "GET"; url := "https://api.lanyard.rest/v1/users/1";
     origin := "https://api.lanyard.rest"; hostname := "api.lanyard.rest" |}.

(** Stub networks: every URL answers 404, 204 or 200. *)
Definition always_404 (u : string) : fetch_result :=
  Resolves (Some {| status := 404; type := Basic; body := "not found" |}).

Definition always_204 (u : string) : fetch_result :=
  Resolves (Some {| status := 204; type := Basic; body := "" |}).

Definition always_200 (u : string) : fetch_result :=
  Resolves (Some (page_response u)).

(** A network on which one asset of the manifest is unreachable. *)
Definition one_unreachable (u : string) : fetch_result :=
  if String.eqb u "/spiral-animation.js" then NetworkError
  else Resolves (Some (page_response u)).

End ServiceWorker.

(** ** Facts about the arithmetic *)

Module JSNumFacts.

Import JSNum.
Local Open Scope Z_scope.

(** *** Digits and shifts *)

Lemma digits2_pos_size (m : positive) : digits2_pos m = Pos.size m.
Proof. induction m as [m IH | m IH | ]; cbn; congruence. Qed.

Lemma digits2_pos_log2 (m : positive) :
  Zpos (digits2_pos m) = Z.log2 (Zpos m) + 1.
Proof.
  rewrite digits2_pos_size.
  destruct m; cbn [Pos.size Z.log2]; rewrite ?Pos2Z.inj_succ; lia.
Qed.

Lemma iter_xO_value (m d : positive) :
  Zpos (Pos.iter xO m d) = Zpos m * 2 ^ Zpos d.
Proof.
  induction d as [ | d IH] using Pos.peano_ind.
  - change (2 ^ 1) with 2. cbn [Pos.iter]. lia.
  - rewrite Pos.iter_succ, Pos2Z.inj_succ, Z.pow_succ_r by lia.
    change (Zpos (Pos.iter xO m d)~0) with (2 * Zpos (Pos.iter xO m d)).
    rewrite IH. ring.
Qed.

(** Shifting right by [p] bits loses nothing when the low [p] bits are
    zero. *)
Lemma shr_exact (p : positive) :
  forall z : Z, 0 < z ->
    SpecFloat.iter_pos shr_1 p
      {| shr_m := z * 2 ^ Zpos p; shr_r := false; shr_s := false |}
    = {| shr_m := z; shr_r := false; shr_s := false |}.
Proof.
  assert (Hone : forall z : Z, 0 < z ->
             shr_1 {| shr_m := z * 2; shr_r := false; shr_s := false |}
             = {| shr_m := z; shr_r := false; shr_s := false |}).
  { intros z Hz. destruct z as [ | q | q]; try lia. 
    replace (Zpos q * 2) with (Zpos q~0) by lia. reflexivity. }
  induction p as [p IH | p IH | ]; intros z Hz; cbn [SpecFloat.iter_pos].
  - replace (z * 2 ^ Zpos p~1) with (((z * 2 ^ Zpos p) * 2 ^ Zpos p) * 2).
    + rewrite Hone by nia. rewrite IH by nia. apply IH; assumption.
    + replace (Zpos p~1) with (Zpos p + Zpos p + 1) by lia.
      rewrite !Z.pow_add_r by lia. change (2 ^ 1) with 2. ring.
  - replace (z * 2 ^ Zpos p~0) with ((z * 2 ^ Zpos p) * 2 ^ Zpos p).
    + rewrite IH by nia. apply IH; assumption.
    + replace (Zpos p~0) with (Zpos p + Zpos p) by lia.
      rewrite Z.pow_add_r by lia. ring.
  - change (2 ^ 1) with 2. apply Hone; assumption.
Qed.

Lemma Zdigits2_log2 (z : Z) : 0 < z -> Zdigits2 z = Z.log2 z + 1.
Proof.
  intros Hz. destruct z as [ | q | q]; try lia.
  cbn [Zdigits2]. apply digits2_pos_log2.
Qed.

Lemma log2_shift (z p : Z) :
  0 < z -> 0 <= p -> Z.log2 (z * 2 ^ p) = Z.log2 z + p.
Proof. intros Hz Hp. rewrite Z.log2_mul_pow2 by lia. lia. Qed.

(** *** Rounding what needs no rounding *)

(** A mantissa with [p] spare low bits, at the exponent its magnitude is
    stored with once those bits are dropped, is returned as it is. *)
Lemma binary_round_aux_exact (s : bool) (w p t : Z) :
  0 < w -> 0 <= p ->
  fexp prec emax (Z.log2 w + 1 + t) = t ->
  t <= emax - prec ->
  binary_round_aux prec emax s (w * 2 ^ p) (t - p) loc_Exact
  = S754_finite s (Z.to_pos w) t.
Proof.
  intros Hw Hp Hfexp Ht.
  assert (Hpos : 0 < w * 2 ^ p) by (apply Z.mul_pos_pos; [lia | apply Z.pow_pos_nonneg; lia]).
  unfold binary_round_aux, shr_fexp.
  rewrite Zdigits2_log2, log2_shift by assumption.
  replace (Z.log2 w + p + 1 + (t - p)) with (Z.log2 w + 1 + t) by lia.
  rewrite Hfexp.
  replace (t - (t - p)) with p by lia.
  assert (Hshr :
    shr (shr_record_of_loc (w * 2 ^ p) loc_Exact) (t - p) p
    = ({| shr_m := w; shr_r := false; shr_s := false |}, t)).
  { unfold shr, shr_record_of_loc. destruct p as [ | q | q]; try lia.
    - rewrite Z.pow_0_r, Z.mul_1_r. f_equal. lia.
    - rewrite shr_exact by assumption. f_equal. lia. }
  rewrite Hshr. cbn [shr_m loc_of_shr_record round_nearest_even].
  rewrite Zdigits2_log2, Hfexp, Z.sub_diag by assumption.
  cbn [shr shr_record_of_loc shr_m].
  destruct w as [ | q | q]; try lia.
  apply Z.leb_le in Ht. rewrite Ht. reflexivity.
Qed.

Lemma stored_exponent_bounds (z e : Z) :
  0 < z < 2 ^ 53 -> -1074 <= e ->
  -1074 <= stored_exponent z e <= e.
Proof.
  intros [Hz Hlt] He. unfold stored_exponent, fexp, emin, prec, emax.
  assert (Z.log2 z < 53) by (apply Z.log2_lt_pow2; lia).
  lia.
Qed.

(** The Number of magnitude [z * 2^e], whatever the mantissa and exponent
    the magnitude is given by. *)
Lemma binary_round_exact (s : bool) (z j e : Z) :
  0 < z < 2 ^ 53 -> 0 <= j -> -1074 <= e <= 971 ->
  binary_round prec emax s (Z.to_pos (z * 2 ^ j)) (e - j)
  = S754_finite s (Z.to_pos (z * 2 ^ (e - stored_exponent z e)))
      (stored_exponent z e).
Proof.
  intros Hz Hj He.
  pose proof (stored_exponent_bounds z e Hz ltac:(lia)) as Ht.
  set (t := stored_exponent z e) in *.
  assert (Hpj : 0 < 2 ^ j) by (apply Z.pow_pos_nonneg; lia).
  assert (Hpt : 0 < 2 ^ (e - t)) by (apply Z.pow_pos_nonneg; lia).
  assert (Hm : Zpos (Z.to_pos (z * 2 ^ j)) = z * 2 ^ j)
    by (apply Z2Pos.id; nia).
  set (w := z * 2 ^ (e - t)).
  assert (Hw : 0 < w) by (unfold w; nia).
  assert (Hfexp : fexp prec emax (Z.log2 w + 1 + t) = t).
  { unfold w. rewrite log2_shift by lia.
    replace (Z.log2 z + (e - t) + 1 + t) with (Z.log2 z + 1 + e) by lia.
    reflexivity. }
  unfold binary_round.
  rewrite digits2_pos_log2, Hm, log2_shift by lia.
  replace (Z.log2 z + j + 1 + (e - j)) with (Z.log2 z + 1 + e) by lia.
  change (fexp prec emax (Z.log2 z + 1 + e)) with t.
  unfold shl_align.
  destruct (t - (e - j)) as [ | q | d] eqn:Hcase.
  - replace (Zpos (Z.to_pos (z * 2 ^ j))) with (w * 2 ^ 0).
    + replace (e - j) with (t - 0) by lia.
      apply binary_round_aux_exact; unfold prec, emax; try lia; assumption.
    + rewrite Hm. unfold w. replace j with (e - t) by lia. ring.
  - replace (Zpos (Z.to_pos (z * 2 ^ j))) with (w * 2 ^ Zpos q).
    + replace (e - j) with (t - Zpos q) by lia.
      apply binary_round_aux_exact; unfold prec, emax; try lia; assumption.
    + rewrite Hm. unfold w. rewrite <- Z.mul_assoc, <- Z.pow_add_r by lia.
      do 2 f_equal. lia.
  - replace (Zpos (Pos.iter xO (Z.to_pos (z * 2 ^ j)) d)) with (w * 2 ^ 0).
    + replace t with (t - 0) at 1 by lia.
      apply binary_round_aux_exact; unfold prec, emax; try lia; assumption.
    + rewrite iter_xO_value, Hm. unfold w.
      rewrite <- !Z.mul_assoc, <- !Z.pow_add_r by lia.
      do 2 f_equal. lia.
Qed.

Lemma binary_normalize_pos (v e : Z) (sz : bool) :
  0 < v ->
  binary_normalize prec emax v e sz
  = binary_round prec emax false (Z.to_pos v) e.
Proof. intros Hv. destruct v; try lia. reflexivity. Qed.

Lemma binary_normalize_neg (v e : Z) (sz : bool) :
  v < 0 ->
  binary_normalize prec emax v e sz
  = binary_round prec emax true (Z.to_pos (- v)) e.
Proof. intros Hv. destruct v; try lia. reflexivity. Qed.

(** The Number [c * 2^e] from any mantissa and exponent that give it. *)
Lemma normalize_exact (c j e : Z) (sz : bool) :
  c <> 0 -> Z.abs c < 2 ^ 53 -> 0 <= j -> -1074 <= e <= 971 ->
  binary_normalize prec emax (c * 2 ^ j) (e - j) sz
  = S754_finite (c <? 0)
      (Z.to_pos (Z.abs c * 2 ^ (e - stored_exponent (Z.abs c) e)))
      (stored_exponent (Z.abs c) e).
Proof.
  intros Hc Hlt Hj He.
  assert (Hpj : 0 < 2 ^ j) by (apply Z.pow_pos_nonneg; lia).
  destruct (Z.ltb_spec c 0) as [Hneg | Hpos].
  - rewrite binary_normalize_neg by nia.
    replace (- (c * 2 ^ j)) with (Z.abs c * 2 ^ j) by lia.
    apply binary_round_exact; lia.
  - rewrite binary_normalize_pos by nia.
    replace (c * 2 ^ j) with (Z.abs c * 2 ^ j) by lia.
    apply binary_round_exact; lia.
Qed.

Lemma dyadic_zero (e : Z) : dyadic 0 e = S754_zero false.
Proof. reflexivity. Qed.

Lemma dyadic_finite (c e : Z) :
  c <> 0 -> Z.abs c < 2 ^ 53 -> -1074 <= e <= 971 ->
  dyadic c e
  = S754_finite (c <? 0)
      (Z.to_pos (Z.abs c * 2 ^ (e - stored_exponent (Z.abs c) e)))
      (stored_exponent (Z.abs c) e).
Proof.
  intros Hc Hlt He. unfold dyadic.
  replace c with (c * 2 ^ 0) at 1 by (rewrite Z.pow_0_r; lia).
  replace e with (e - 0) at 1 by lia.
  apply normalize_exact; lia.
Qed.

Lemma normalize_dyadic (c j e : Z) (sz : bool) :
  c <> 0 -> Z.abs c < 2 ^ 53 -> 0 <= j -> -1074 <= e <= 971 ->
  binary_normalize prec emax (c * 2 ^ j) (e - j) sz = dyadic c e.
Proof.
  intros Hc Hlt Hj He.
  rewrite normalize_exact, dyadic_finite by assumption. reflexivity.
Qed.

Lemma dyadic_opp (c e : Z) :
  c <> 0 -> Z.abs c < 2 ^ 53 -> -1074 <= e <= 971 ->
  dyadic (- c) e = SFopp (dyadic c e).
Proof.
  intros Hc Hlt He. rewrite !dyadic_finite by lia.
  cbn [SFopp]. rewrite Z.abs_opp. f_equal.
  destruct (Z.ltb_spec c 0), (Z.ltb_spec (- c) 0); try lia; reflexivity.
Qed.

Lemma cond_Zopp_mul (s : bool) (m k : Z) :
  cond_Zopp s m * k = cond_Zopp s (m * k).
Proof. destruct s; cbn [cond_Zopp]; lia. Qed.

(** The mantissa of a stored Number, back as a multiple of [2^ez]. *)
Lemma stored_mantissa (c e ez : Z) :
  c <> 0 -> Z.abs c < 2 ^ 53 -> -1074 <= e <= 971 ->
  ez <= stored_exponent (Z.abs c) e ->
  cond_Zopp (c <? 0)
    (Zpos (Z.to_pos (Z.abs c * 2 ^ (e - stored_exponent (Z.abs c) e)))
     * 2 ^ (stored_exponent (Z.abs c) e - ez))
  = c * 2 ^ (e - ez).
Proof.
  intros Hc Hlt He Hez.
  pose proof (stored_exponent_bounds (Z.abs c) e ltac:(lia) ltac:(lia)) as Ht.
  set (t := stored_exponent (Z.abs c) e) in *.
  assert (0 < 2 ^ (e - t)) by (apply Z.pow_pos_nonneg; lia).
  rewrite Z2Pos.id by nia.
  rewrite <- Z.mul_assoc, <- Z.pow_add_r by lia.
  replace (e - t + (t - ez)) with (e - ez) by lia.
  destruct (Z.ltb_spec c 0); cbn [cond_Zopp]; lia.
Qed.

Lemma shl_align_fst (mx : positive) (ex ez : Z) :
  ez <= ex -> Zpos (fst (shl_align mx ex ez)) = Zpos mx * 2 ^ (ex - ez).
Proof.
  intros Hle. unfold shl_align.
  destruct (ez - ex) as [ | q | d] eqn:Hcase; try lia; cbn [fst].
  - replace (ex - ez) with 0 by lia. rewrite Z.pow_0_r. lia.
  - rewrite iter_xO_value. do 2 f_equal. lia.
Qed.

(** *** Exact sums, differences and remainders

    Numbers that are multiples of a common [2^e], with mantissas below
    [2^53], are added, subtracted and reduced without rounding as long as
    the result's mantissa stays below [2^53]. *)

Lemma aligned_sum (sx sy : bool) (mx my : positive) (ex ey : Z) (f : Z -> Z -> Z) :
  binary_normalize prec emax
    (f (cond_Zopp sx (Zpos (fst (shl_align mx ex (Z.min ex ey)))))
       (cond_Zopp sy (Zpos (fst (shl_align my ey (Z.min ex ey))))))
    (Z.min ex ey) false
  = binary_normalize prec emax
      (f (cond_Zopp sx (Zpos mx * 2 ^ (ex - Z.min ex ey)))
         (cond_Zopp sy (Zpos my * 2 ^ (ey - Z.min ex ey))))
      (Z.min ex ey) false.
Proof. rewrite !shl_align_fst by lia. reflexivity. Qed.

Lemma js_add_dyadic (a b e : Z) :
  Z.abs a < 2 ^ 53 -> Z.abs b < 2 ^ 53 -> Z.abs (a + b) < 2 ^ 53 ->
  -1074 <= e <= 971 ->
  js_add (dyadic a e) (dyadic b e) = dyadic (a + b) e.
Proof.
  intros Ha Hb Hab He.
  destruct (Z.eq_dec a 0) as [-> | Hna].
  { rewrite dyadic_zero, Z.add_0_l.
    destruct (Z.eq_dec b 0) as [-> | Hnb]; [reflexivity | ].
    rewrite dyadic_finite by assumption. reflexivity. }
  destruct (Z.eq_dec b 0) as [-> | Hnb].
  { rewrite dyadic_zero, Z.add_0_r, dyadic_finite by assumption. reflexivity. }
  rewrite (dyadic_finite a), (dyadic_finite b) by assumption.
  unfold js_add. cbn [SFadd].
  rewrite (aligned_sum _ _ _ _ _ _ Z.add).
  pose proof (stored_exponent_bounds (Z.abs a) e ltac:(lia) ltac:(lia)) as Hta.
  pose proof (stored_exponent_bounds (Z.abs b) e ltac:(lia) ltac:(lia)) as Htb.
  rewrite !stored_mantissa by lia.
  set (ta := stored_exponent (Z.abs a) e) in *.
  set (tb := stored_exponent (Z.abs b) e) in *.
  rewrite <- Z.mul_add_distr_r.
  destruct (Z.eq_dec (a + b) 0) as [Hz | Hnz].
  - rewrite Hz. reflexivity.
  - replace (Z.min ta tb) with (e - (e - Z.min ta tb)) at 2 by lia.
    apply normalize_dyadic; lia.
Qed.

Lemma js_sub_dyadic (a b e : Z) :
  Z.abs a < 2 ^ 53 -> Z.abs b < 2 ^ 53 -> Z.abs (a - b) < 2 ^ 53 ->
  -1074 <= e <= 971 ->
  js_sub (dyadic a e) (dyadic b e) = dyadic (a - b) e.
Proof.
  intros Ha Hb Hab He.
  destruct (Z.eq_dec b 0) as [-> | Hnb].
  { rewrite dyadic_zero, Z.sub_0_r.
    destruct (Z.eq_dec a 0) as [-> | Hna]; [reflexivity | ].
    rewrite dyadic_finite by assumption. reflexivity. }
  destruct (Z.eq_dec a 0) as [-> | Hna].
  { rewrite dyadic_zero, Z.sub_0_l, dyadic_opp, dyadic_finite by assumption.
    reflexivity. }
  rewrite (dyadic_finite a), (dyadic_finite b) by assumption.
  unfold js_sub. cbn [SFsub].
  rewrite (aligned_sum _ _ _ _ _ _ Z.sub).
  pose proof (stored_exponent_bounds (Z.abs a) e ltac:(lia) ltac:(lia)) as Hta.
  pose proof (stored_exponent_bounds (Z.abs b) e ltac:(lia) ltac:(lia)) as Htb.
  rewrite !stored_mantissa by lia.
  set (ta := stored_exponent (Z.abs a) e) in *.
  set (tb := stored_exponent (Z.abs b) e) in *.
  rewrite <- Z.mul_sub_distr_r.
  destruct (Z.eq_dec (a - b) 0) as [Hz | Hnz].
  - rewrite Hz. reflexivity.
  - replace (Z.min ta tb) with (e - (e - Z.min ta tb)) at 2 by lia.
    apply normalize_dyadic; lia.
Qed.

(** With a first operand that may be [-0], and a second that is not 0. *)
Lemma js_add_represents (x : number) (a b e : Z) :
  represents x a e -> b <> 0 ->
  Z.abs a < 2 ^ 53 -> Z.abs b < 2 ^ 53 -> Z.abs (a + b) < 2 ^ 53 ->
  -1074 <= e <= 971 ->
  js_add x (dyadic b e) = dyadic (a + b) e.
Proof.
  intros [-> | [-> ->]] Hnb Ha Hb Hab He.
  - apply js_add_dyadic; assumption.
  - rewrite Z.add_0_l, dyadic_finite by assumption. reflexivity.
Qed.

Lemma js_sub_represents (x : number) (a b e : Z) :
  represents x a e -> b <> 0 ->
  Z.abs a < 2 ^ 53 -> Z.abs b < 2 ^ 53 -> Z.abs (a - b) < 2 ^ 53 ->
  -1074 <= e <= 971 ->
  js_sub x (dyadic b e) = dyadic (a - b) e.
Proof.
  intros [-> | [-> ->]] Hnb Ha Hb Hab He.
  - apply js_sub_dyadic; assumption.
  - rewrite Z.sub_0_l, dyadic_opp, dyadic_finite by assumption. reflexivity.
Qed.

Lemma rem_signed (a n : Z) :
  n <> 0 -> cond_Zopp (a <? 0) (Z.abs a mod Z.abs n) = Z.rem a n.
Proof.
  intros Hn.
  rewrite <- (Z.rem_mod_nonneg (Z.abs a) (Z.abs n)) by lia.
  rewrite Z.rem_abs_r by assumption.
  destruct (Z.ltb_spec a 0); cbn [cond_Zopp].
  - replace (Z.abs a) with (- a) by lia. rewrite Z.rem_opp_l by assumption. lia.
  - replace (Z.abs a) with a by lia. reflexivity.
Qed.

Lemma js_rem_represents (x : number) (a n e : Z) :
  represents x a e -> n <> 0 ->
  Z.abs a < 2 ^ 53 -> Z.abs n < 2 ^ 53 ->
  -1074 <= e <= 971 ->
  represents (js_rem x (dyadic n e)) (Z.rem a n) e.
Proof.
  intros Hx Hn Ha Hlt He.
  assert (Hrem : Z.abs (Z.rem a n) < Z.abs n) by (apply Z.rem_bound_abs; assumption).
  rewrite (dyadic_finite n) by assumption.
  destruct Hx as [-> | [-> ->]].
  2:{ right. split; reflexivity. }
  destruct (Z.eq_dec a 0) as [-> | Hna].
  { left. rewrite Z.rem_0_l by assumption. reflexivity. }
  rewrite (dyadic_finite a) by assumption.
  cbn [js_rem].
  pose proof (stored_exponent_bounds (Z.abs a) e ltac:(lia) ltac:(lia)) as Hta.
  pose proof (stored_exponent_bounds (Z.abs n) e ltac:(lia) ltac:(lia)) as Htn.
  set (ta := stored_exponent (Z.abs a) e) in *.
  set (tn := stored_exponent (Z.abs n) e) in *.
  assert (Hpa : 0 < 2 ^ (e - ta)) by (apply Z.pow_pos_nonneg; lia).
  assert (Hpn : 0 < 2 ^ (e - tn)) by (apply Z.pow_pos_nonneg; lia).
  assert (Hp0 : 0 < 2 ^ (e - Z.min ta tn)) by (apply Z.pow_pos_nonneg; lia).
  rewrite !Z2Pos.id by nia.
  rewrite <- !Z.mul_assoc, <- !Z.pow_add_r by lia.
  replace (e - ta + (ta - Z.min ta tn)) with (e - Z.min ta tn) by lia.
  replace (e - tn + (tn - Z.min ta tn)) with (e - Z.min ta tn) by lia.
  rewrite Z.mul_mod_distr_r by lia.
  replace (cond_Zopp (a <? 0) (Z.abs a mod Z.abs n * 2 ^ (e - Z.min ta tn)))
    with (Z.rem a n * 2 ^ (e - Z.min ta tn)).
  2:{ rewrite <- (rem_signed a n) by assumption.
      destruct (a <? 0); cbn [cond_Zopp]; lia. }
  destruct (Z.eq_dec (Z.rem a n) 0) as [Hz | Hnz].
  - rewrite Hz. cbn [Z.mul binary_normalize].
    destruct (Z.ltb_spec a 0); [right | left]; split || reflexivity; reflexivity.
  - left.
    replace (Z.min ta tn) with (e - (e - Z.min ta tn)) at 2 by lia.
    apply normalize_dyadic; lia.
Qed.

(** *** Comparisons and [Math.max] *)

Lemma SFcompare_antisym (x y : number) :
  SFcompare y x = option_map CompOpp (SFcompare x y).
Proof.
  destruct x as [sx | sx | | sx mx ex], y as [sy | sy | | sy my ey];
    cbn [SFcompare option_map];
    try (destruct sx; reflexivity); try (destruct sy; reflexivity);
    try (destruct sx, sy; reflexivity); try reflexivity.
  destruct sx, sy; cbn [CompOpp]; try reflexivity;
    rewrite (Z.compare_antisym ex ey);
    destruct (ex ?= ey); cbn [CompOpp]; try reflexivity.
  - rewrite CompOpp_involutive, Pos.compare_cont_antisym. reflexivity.
  - rewrite Pos.compare_cont_antisym. reflexivity.
Qed.

(** A speed at or above the floor is used as it is... *)
Lemma math_max_above (a : number) :
  js_le tenth a = true -> math_max a tenth = a.
Proof.
  unfold js_le, SFleb, math_max. intros H.
  rewrite (SFcompare_antisym tenth a).
  destruct (SFcompare tenth a) as [[ | | ] | ] eqn:E; try discriminate;
    cbn [option_map CompOpp]; try reflexivity.
  destruct a as [[ | ] | | | ]; try reflexivity. discriminate E.
Qed.

(** ... and any Number below the floor is replaced by it. *)
Lemma math_max_below (a : number) :
  js_lt a tenth = true -> math_max a tenth = tenth.
Proof.
  unfold js_lt, SFltb, math_max.
  destruct (SFcompare a tenth) as [[ | | ] | ]; try discriminate. reflexivity.
Qed.

(** *** Congruence of exact values *)

Lemma exponent_represents (x : number) (a e : Z) :
  represents x a e -> Z.abs a < 2 ^ 53 -> -1074 <= e <= 971 ->
  exponent x = if a =? 0 then 0 else stored_exponent (Z.abs a) e.
Proof.
  intros [-> | [-> ->]] Ha He; [ | reflexivity].
  destruct (Z.eqb_spec a 0) as [-> | Hna]; [reflexivity | ].
  rewrite dyadic_finite by assumption. reflexivity.
Qed.

Lemma mantissa_at_represents (x : number) (a e e0 : Z) :
  represents x a e -> Z.abs a < 2 ^ 53 -> -1074 <= e <= 971 ->
  (a <> 0 -> e0 <= stored_exponent (Z.abs a) e) ->
  mantissa_at e0 x = Some (a * 2 ^ (e - e0)).
Proof.
  intros [-> | [-> ->]] Ha He Hle; [ | reflexivity].
  destruct (Z.eq_dec a 0) as [-> | Hna]; [reflexivity | ].
  specialize (Hle Hna).
  rewrite dyadic_finite by assumption. cbn [mantissa_at].
  apply Z.leb_le in Hle as Hb. rewrite Hb.
  rewrite cond_Zopp_mul, stored_mantissa by assumption. reflexivity.
Qed.

Lemma congruent_mod_represents (xa xb : number) (n r x e : Z) :
  represents xa r e -> represents xb x e ->
  n <> 0 -> Z.abs n < 2 ^ 53 -> Z.abs r < 2 ^ 53 -> Z.abs x < 2 ^ 53 ->
  -1074 <= e <= 971 ->
  (n | r - x) ->
  congruent_mod (dyadic n e) xa xb = true.
Proof.
  intros Hxa Hxb Hn Hnlt Hrlt Hxlt He [q Hq].
  unfold congruent_mod.
  rewrite (exponent_represents xa r e), (exponent_represents xb x e)
    by assumption.
  rewrite (exponent_represents (dyadic n e) n e) by (try left; auto).
  destruct (Z.eqb_spec n 0) as [ | _]; [contradiction | ].
  pose proof (stored_exponent_bounds (Z.abs n) e ltac:(lia) ltac:(lia)) as Htn.
  set (e0 := Z.min _ _).
  assert (He0 : e0 <= stored_exponent (Z.abs n) e) by (unfold e0; lia).
  rewrite (mantissa_at_represents (dyadic n e) n e e0)
    by (try left; auto).
  rewrite (mantissa_at_represents xa r e e0); try assumption.
  2:{ intros Hnr. unfold e0. destruct (Z.eqb_spec r 0); [contradiction | lia]. }
  rewrite (mantissa_at_represents xb x e e0); try assumption.
  2:{ intros Hnx. unfold e0. destruct (Z.eqb_spec x 0); [contradiction | lia]. }
  assert (Hp : 0 < 2 ^ (e - e0)) by (apply Z.pow_pos_nonneg; lia).
  apply andb_true_intro. split.
  - apply negb_true_iff, Z.eqb_neq. nia.
  - apply Z.eqb_eq.
    rewrite <- Z.mul_sub_distr_r, Hq.
    replace (q * n * 2 ^ (e - e0)) with (q * (n * 2 ^ (e - e0))) by ring.
    apply Z.rem_mul. nia.
Qed.

(** *** The operations on familiar values *)

Lemma tenth_literal : tenth = decimal 1 1.
Proof. reflexivity. Qed.

(** [0.1 + 0.2] is 0.30000000000000004; three additions of 12.7 give
    38.099999999999994; [768 / 38.4] is 20 and [306 / 10.2] is
    30.000000000000004; [1 / 0] is [Infinity] and [0 / 0] is NaN. *)
Lemma rounding_examples :
  js_add (decimal 1 1) (decimal 2 1) = S754_finite false 5404319552844596 (-54) /\
  js_lt (decimal 3 1) (js_add (decimal 1 1) (decimal 2 1)) = true /\
  js_add (js_add (js_add (of_Z 0) (decimal 127 1)) (decimal 127 1))
         (decimal 127 1)
  = S754_finite false 5362098306337996 (-47) /\
  js_lt (js_add (js_add (js_add (of_Z 0) (decimal 127 1)) (decimal 127 1))
                (decimal 127 1))
        (decimal 381 1) = true /\
  js_div (of_Z 768) (decimal 384 1) = of_Z 20 /\
  js_lt (of_Z 30) (js_div (of_Z 306) (decimal 102 1)) = true /\
  js_div (of_Z 1) (of_Z 0) = S754_infinity false /\
  js_div (of_Z 0) (of_Z 0) = NaN.
Proof. repeat split; vm_compute; reflexivity. Qed.

(** [-60 % 40] is -20, [-80 % 40] is [-0], [5.5 % -2] is 1.5,
    [Infinity % 40] and [40 % 0] are NaN; [Math.floor(-0.5)] is -1,
    [Math.ceil(-0.5)] is [-0], [Math.ceil(20)] is 20;
    [Math.max(-0, 0)] is [+0], [Math.max(NaN, 1)] is NaN. *)
Lemma exact_examples :
  js_rem (of_Z (-60)) (of_Z 40) = of_Z (-20) /\
  js_rem (of_Z (-80)) (of_Z 40) = S754_zero true /\
  js_rem (decimal 55 1) (of_Z (-2)) = decimal 15 1 /\
  js_rem (S754_infinity false) (of_Z 40) = NaN /\
  js_rem (of_Z 40) (of_Z 0) = NaN /\
  math_floor (decimal (-5) 1) = of_Z (-1) /\
  math_ceil (decimal (-5) 1) = S754_zero true /\
  math_ceil (of_Z 20) = of_Z 20 /\
  math_max (S754_zero true) (of_Z 0) = of_Z 0 /\
  math_max NaN (of_Z 1) = NaN.
Proof. repeat split; vm_compute; reflexivity. Qed.

End JSNumFacts.

(** ** Facts about the grid animation *)

Module GridFacts.

Import JSNum Grid JSNumFacts.
Local Open Scope Z_scope.
Local Open Scope string_scope.

(** *** The offset update, direction by direction *)

Lemma moveBy_right (es : number) (st : SquaresAnimation) :
  direction st = "right" ->
  moveBy es st
  = {| px := js_rem (js_add (js_sub (px (gridOffset st)) es) (squareSize st))
                    (squareSize st);
       py := py (gridOffset st) |}.
Proof. intros H. unfold moveBy. rewrite H. reflexivity. Qed.

Lemma moveBy_left (es : number) (st : SquaresAnimation) :
  direction st = "left" ->
  moveBy es st
  = {| px := js_rem (js_add (js_add (px (gridOffset st)) es) (squareSize st))
                    (squareSize st);
       py := py (gridOffset st) |}.
Proof. intros H. unfold moveBy. rewrite H. reflexivity. Qed.

Lemma moveBy_up (es : number) (st : SquaresAnimation) :
  direction st = "up" ->
  moveBy es st
  = {| px := px (gridOffset st);
       py := js_rem (js_add (js_add (py (gridOffset st)) es) (squareSize st))
                    (squareSize st) |}.
Proof. intros H. unfold moveBy. rewrite H. reflexivity. Qed.

Lemma moveBy_down (es : number) (st : SquaresAnimation) :
  direction st = "down" ->
  moveBy es st
  = {| px := px (gridOffset st);
       py := js_rem (js_add (js_sub (py (gridOffset st)) es) (squareSize st))
                    (squareSize st) |}.
Proof. intros H. unfold moveBy. rewrite H. reflexivity. Qed.

(** The fields an offset update and a change of speed leave alone. *)
Lemma offsetUpdate_squareSize (st : SquaresAnimation) :
  squareSize (offsetUpdate st) = squareSize st.
Proof. reflexivity. Qed.

Lemma offsetUpdate_direction (st : SquaresAnimation) :
  direction (offsetUpdate st) = direction st.
Proof. reflexivity. Qed.

Lemma offsetUpdate_speed (st : SquaresAnimation) :
  speed (offsetUpdate st) = speed st.
Proof. reflexivity. Qed.

Lemma offsetUpdate_gridOffset (st : SquaresAnimation) :
  gridOffset (offsetUpdate st) = moveBy (math_max (speed st) tenth) st.
Proof. reflexivity. Qed.

(** *** One step back and one step forward on exact values *)

Lemma backward_step (v : number) (x s n e : Z) :
  represents v x e ->
  0 < s < n -> Z.abs x + 2 * n < 2 ^ 53 -> -1074 <= e <= 971 ->
  represents
    (js_rem (js_add (js_sub v (dyadic s e)) (dyadic n e)) (dyadic n e))
    (Z.rem (x - s + n) n) e.
Proof.
  intros Hv Hs Hx He.
  rewrite (js_sub_represents v x s e) by (try assumption; lia).
  rewrite js_add_dyadic by lia.
  apply js_rem_represents; try lia. left. reflexivity.
Qed.

Lemma forward_step (v : number) (x s n e : Z) :
  represents v x e ->
  0 < s < n -> Z.abs x + 2 * n < 2 ^ 53 -> -1074 <= e <= 971 ->
  represents
    (js_rem (js_add (js_add v (dyadic s e)) (dyadic n e)) (dyadic n e))
    (Z.rem (x + s + n) n) e.
Proof.
  intros Hv Hs Hx He.
  rewrite (js_add_represents v x s e) by (try assumption; lia).
  rewrite js_add_dyadic by lia.
  apply js_rem_represents; try lia. left. reflexivity.
Qed.

Lemma rem_congruent (a n : Z) : n <> 0 -> (n | Z.rem a n - a).
Proof.
  intros Hn. exists (- (a ÷ n)).
  pose proof (Z.quot_rem' a n). lia.
Qed.

Lemma rem_bounded (a n : Z) : 0 < n -> Z.abs (Z.rem a n) < n.
Proof.
  intros Hn. pose proof (Z.rem_bound_abs a n ltac:(lia)). lia.
Qed.

(** Back by [s] and back by [n - s], or forward by both: a whole square. *)
Lemma backward_twice (v : number) (x s n e : Z) :
  represents v x e ->
  0 < s < n -> Z.abs x + 3 * n < 2 ^ 53 -> -1074 <= e <= 971 ->
  exists r,
    represents
      (js_rem
         (js_add
            (js_sub
               (js_rem (js_add (js_sub v (dyadic s e)) (dyadic n e))
                       (dyadic n e))
               (dyadic (n - s) e))
            (dyadic n e))
         (dyadic n e)) r e
    /\ Z.abs r < n /\ (n | r - x).
Proof.
  intros Hv Hs Hx He.
  pose proof (backward_step v x s n e Hv Hs ltac:(lia) He) as H1.
  pose proof (rem_bounded (x - s + n) n ltac:(lia)) as Hb1.
  set (r1 := Z.rem (x - s + n) n) in *.
  pose proof (backward_step _ r1 (n - s) n e H1 ltac:(lia) ltac:(lia) He) as H2.
  exists (Z.rem (r1 - (n - s) + n) n). split; [exact H2 | split].
  - apply rem_bounded; lia.
  - destruct (rem_congruent (r1 - (n - s) + n) n ltac:(lia)) as [q2 Hq2].
    destruct (rem_congruent (x - s + n) n ltac:(lia)) as [q1 Hq1].
    fold r1 in Hq1. exists (q1 + q2 + 1). lia.
Qed.

Lemma forward_twice (v : number) (x s n e : Z) :
  represents v x e ->
  0 < s < n -> Z.abs x + 3 * n < 2 ^ 53 -> -1074 <= e <= 971 ->
  exists r,
    represents
      (js_rem
         (js_add
            (js_add
               (js_rem (js_add (js_add v (dyadic s e)) (dyadic n e))
                       (dyadic n e))
               (dyadic (n - s) e))
            (dyadic n e))
         (dyadic n e)) r e
    /\ Z.abs r < n /\ (n | r - x).
Proof.
  intros Hv Hs Hx He.
  pose proof (forward_step v x s n e Hv Hs ltac:(lia) He) as H1.
  pose proof (rem_bounded (x + s + n) n ltac:(lia)) as Hb1.
  set (r1 := Z.rem (x + s + n) n) in *.
  pose proof (forward_step _ r1 (n - s) n e H1 ltac:(lia) ltac:(lia) He) as H2.
  exists (Z.rem (r1 + (n - s) + n) n). split; [exact H2 | split].
  - apply rem_bounded; lia.
  - destruct (rem_congruent (r1 + (n - s) + n) n ltac:(lia)) as [q2 Hq2].
    destruct (rem_congruent (x + s + n) n ltac:(lia)) as [q1 Hq1].
    fold r1 in Hq1. exists (q1 + q2 + 3). lia.
Qed.

(** *** There and back *)

Lemma there_and_back_offset (s : number) (st : SquaresAnimation) :
  js_le tenth s = true ->
  js_le tenth (js_sub (squareSize st) s) = true ->
  gridOffset (there_and_back s st)
  = moveBy (js_sub (squareSize st) s)
      (with_gridOffset (moveBy s st) st).
Proof.
  intros Hs Hc. unfold there_and_back.
  rewrite !offsetUpdate_gridOffset.
  cbn [speed updateConfig set_speed new_speed from_option id].
  rewrite (math_max_above _ Hc).
  unfold offsetUpdate, nextOffset, effectiveSpeed.
  cbn [speed updateConfig set_speed new_speed from_option id].
  rewrite (math_max_above _ Hs).
  reflexivity.
Qed.

Lemma single_axis_cases (d : string) (p : point) :
  single_axis d ->
  (d = "right" /\ moved_component d p = px p) \/
  (d = "left" /\ moved_component d p = px p) \/
  (d = "up" /\ moved_component d p = py p) \/
  (d = "down" /\ moved_component d p = py p).
Proof.
  intros [-> | [-> | [-> | ->]]]; [left | right; left | do 2 right; left | do 3 right];
    split; reflexivity.
Qed.

(** C8, as amended.  When [squareSize], the moved offset component and [s]
    are integer multiples [n], [x] and [s] of one power of two [2^e], small
    enough for the sums to be exact, and both speeds, [s] and
    [squareSize - s], are at least the floor 0.1, then one offset update at
    speed [s] followed by one at speed [squareSize - s] returns the moved
    component of a single-axis direction to its original value modulo
    [squareSize]. *)
Theorem speed_then_complement_returns
    (d : string) (st : SquaresAnimation) (e x n s : Z) :
  single_axis d ->
  direction st = d ->
  squareSize st = dyadic n e ->
  represents (moved_component d (gridOffset st)) x e ->
  -1074 <= e <= 971 ->
  0 < s < n ->
  Z.abs x + 3 * n < 2 ^ 53 ->
  js_le tenth (dyadic s e) = true ->
  js_le tenth (dyadic (n - s) e) = true ->
  congruent_mod (squareSize st)
    (moved_component d (gridOffset (there_and_back (dyadic s e) st)))
    (moved_component d (gridOffset st)) = true.
Proof.
  intros Hd Hdir Hsz Hx He Hs Hbound Hfloor1 Hfloor2.
  assert (Hcomp : js_sub (squareSize st) (dyadic s e) = dyadic (n - s) e).
  { rewrite Hsz. apply js_sub_dyadic; lia. }
  rewrite there_and_back_offset by (rewrite ?Hcomp; assumption).
  rewrite Hcomp.
  set (st1 := with_gridOffset (moveBy (dyadic s e) st) st).
  assert (Hdir1 : direction st1 = d) by exact Hdir.
  assert (Hsz1 : squareSize st1 = dyadic n e) by exact Hsz.
  destruct (single_axis_cases d (gridOffset st) Hd)
    as [[-> Hm] | [[-> Hm] | [[-> Hm] | [-> Hm]]]];
    rewrite Hm in *.
  - rewrite (moveBy_right _ st1 Hdir1).
    unfold st1. cbn [gridOffset with_gridOffset squareSize].
    rewrite (moveBy_right _ st Hdir), Hsz.
    cbn [moved_component String.eqb Ascii.eqb Bool.eqb orb px py].
    destruct (backward_twice _ x s n e Hx Hs Hbound He) as (r & Hr & Hlt & Hdiv).
    apply (congruent_mod_represents _ _ n r x e); try assumption; lia.
  - rewrite (moveBy_left _ st1 Hdir1).
    unfold st1. cbn [gridOffset with_gridOffset squareSize].
    rewrite (moveBy_left _ st Hdir), Hsz.
    cbn [moved_component String.eqb Ascii.eqb Bool.eqb orb px py].
    destruct (forward_twice _ x s n e Hx Hs Hbound He) as (r & Hr & Hlt & Hdiv).
    apply (congruent_mod_represents _ _ n r x e); try assumption; lia.
  - rewrite (moveBy_up _ st1 Hdir1).
    unfold st1. cbn [gridOffset with_gridOffset squareSize].
    rewrite (moveBy_up _ st Hdir), Hsz.
    cbn [moved_component String.eqb Ascii.eqb Bool.eqb orb px py].
    destruct (forward_twice _ x s n e Hx Hs Hbound He) as (r & Hr & Hlt & Hdiv).
    apply (congruent_mod_represents _ _ n r x e); try assumption; lia.
  - rewrite (moveBy_down _ st1 Hdir1).
    unfold st1. cbn [gridOffset with_gridOffset squareSize].
    rewrite (moveBy_down _ st Hdir), Hsz.
    cbn [moved_component String.eqb Ascii.eqb Bool.eqb orb px py].
    destruct (backward_twice _ x s n e Hx Hs Hbound He) as (r & Hr & Hlt & Hdiv).
    apply (congruent_mod_represents _ _ n r x e); try assumption; lia.
Qed.

(** Quarter pixels: squares of 40, the offset at 8.75, a speed of 0.25
    and then of 39.75, scrolling left. *)
Lemma speed_then_complement_returns_witness :
  congruent_mod (of_Z 40)
    (px (gridOffset
           (there_and_back quarter
              (instance_at "left" (of_Z 40) eight_and_three_quarters
                           (of_Z 0)))))
    eight_and_three_quarters = true.
Proof.
  apply (speed_then_complement_returns "left"
           (instance_at "left" (of_Z 40) eight_and_three_quarters (of_Z 0))
           (-2) 35 160 1).
  - right. left. reflexivity.
  - reflexivity.
  - reflexivity.
  - left. reflexivity.
  - lia.
  - lia.
  - vm_compute. reflexivity.
  - reflexivity.
  - reflexivity.
Defined.

(** C8 as stated fails in two ways.  Below the floor: scrolling right over
    squares of 40 from offset 0, a speed of 1/16 moves by 0.1 and the
    complement by 39.9375, which ends at 39.9625 (to the last bit), not at
    a multiple of 40.  By rounding: scrolling left from 0.1 with speeds 0.2
    and 39.8, both above the floor, ends at 0.09999999999999432. *)
Lemma complement_misses_original_value :
  congruent_mod (of_Z 40)
    (px (gridOffset
           (there_and_back sixteenth
              (instance_at "right" (of_Z 40) (of_Z 0) (of_Z 0)))))
    (of_Z 0) = false /\
  in_range (of_Z 40)
    (px (gridOffset
           (there_and_back sixteenth
              (instance_at "right" (of_Z 40) (of_Z 0) (of_Z 0))))) = true /\
  js_lt (of_Z 39)
    (px (gridOffset
           (there_and_back sixteenth
              (instance_at "right" (of_Z 40) (of_Z 0) (of_Z 0))))) = true /\
  js_le tenth fifth = true /\
  js_le tenth (js_sub (of_Z 40) fifth) = true /\
  px (gridOffset
        (there_and_back fifth (instance_at "left" (of_Z 40) tenth (of_Z 0))))
  = S754_finite false 7205759403792384 (-56) /\
  congruent_mod (of_Z 40)
    (px (gridOffset
           (there_and_back fifth
              (instance_at "left" (of_Z 40) tenth (of_Z 0)))))
    tenth = false.
Proof. repeat split; vm_compute; reflexivity. Qed.

(** *** The offset range *)

(** C1, at the failing input.  Constructed with direction "right", speed
    100 and squareSize 40, the instance comes out of its first frame with
    [gridOffset.x = (0 - 100 + 40) % 40 = -20], outside [[0, 40)]; with
    direction "left" and the same speed and size the offset is 20, inside
    the range. *)
Theorem offset_leaves_range_at_high_speed :
  (exists st,
     construct_on surface_800_600 100 fast_options = Some st /\
     px (gridOffset st) = of_Z (-20) /\
     js_lt (px (gridOffset st)) (of_Z 0) = true /\
     offset_in_range st = false) /\
  (exists st,
     construct_on surface_800_600 100 (options_of "left" (of_Z 100) (of_Z 40))
     = Some st /\
     px (gridOffset st) = of_Z 20 /\
     offset_in_range st = true).
Proof.
  split.
  - eexists. split; [vm_compute; reflexivity | ].
    repeat split; vm_compute; reflexivity.
  - eexists. split; [vm_compute; reflexivity | ].
    repeat split; vm_compute; reflexivity.
Qed.

(** The site's own instance (diagonal, speed 0.8, squares of 40) comes out
    of its first frame inside the range. *)
Lemma site_offset_in_range :
  exists st,
    construct_on surface_800_600 100 site_options = Some st /\
    offset_in_range st = true.
Proof.
  eexists. split; [vm_compute; reflexivity | ]. vm_compute. reflexivity.
Qed.

(** A sum that overflows: scrolling left at the largest finite speed over
    squares of [2^1000], the sum is [Infinity] and the offset NaN, which is
    in no range. *)
Lemma offset_overflow_is_NaN :
  let st :=
    offsetUpdate
      (updateConfig (set_speed max_value)
         (instance_at "left" (dyadic 1 1000) (of_Z 0) (of_Z 0))) in
  px (gridOffset st) = NaN /\ offset_in_range st = false.
Proof. split; vm_compute; reflexivity. Qed.

(** *** Hovering *)

(** C7, at two failing inputs.

    After [updateConfig({ squareSize: 16 })] on an instance whose offset is
    20, the first cell [drawGrid] visits has index (0, 0) and is drawn at
    x = 12; a pointer at the centre of that square is mapped to cell (1, 0),
    and the next [drawGrid] does not fill the square under the pointer.

    With squareSize 12.7 the loop variable of the fourth column is
    38.099999999999994 after three additions, so the column carries index
    2 where the pointer at the centre of its square is mapped to 3, and the
    next [drawGrid] does not fill the square under the pointer. *)
Theorem hover_misses_drawn_cell :
  (exists st c,
     reconfigured_instance 100 = Some st /\
     px (gridOffset st) = of_Z 20 /\
     drawn_cell 100 st 0 = Some c /\
     (cell_ix c, cell_iy c) = (of_Z 0, of_Z 0) /\
     cell_x c = of_Z 12 /\
     hovered_at_centre surface_100_50 st c = Some (of_Z 1, of_Z 0) /\
     is_hovered
       (handleMouseMove surface_100_50 (cell_centre surface_100_50 st c) st)
       c = false) /\
  (exists st c,
     construct_on surface_100_50 100 fractional_options = Some st /\
     offset_in_range st = true /\
     drawn_cell 100 st 15 = Some c /\
     (cell_ix c, cell_iy c) = (of_Z 2, of_Z 0) /\
     hovered_at_centre surface_100_50 st c = Some (of_Z 3, of_Z 0) /\
     is_hovered
       (handleMouseMove surface_100_50 (cell_centre surface_100_50 st c) st)
       c = false).
Proof.
  split.
  - do 2 eexists. split; [vm_compute; reflexivity | ].
    split; [vm_compute; reflexivity | ].
    split; [vm_compute; reflexivity | ].
    repeat split; vm_compute; reflexivity.
  - do 2 eexists. split; [vm_compute; reflexivity | ].
    split; [vm_compute; reflexivity | ].
    split; [vm_compute; reflexivity | ].
    repeat split; vm_compute; reflexivity.
Qed.

(** *** Resizing *)


Section Resizing.

Variable canvas_dim : number -> number.


End Resizing.

(** The counts on a few surfaces: 800 by 600 over squares of 40; 768 over
    squares of 38.4, where the quotient rounds to 20 and the count is 21;
    306 over squares of 10.2, where the quotient is 30.000000000000004 and
    the count is 32.  The offset is as it was. *)
Lemma resize_examples :
  (let st := resizeCanvas browser_canvas_dim surface_800_600
               (instance_at "left" (of_Z 40) (of_Z 7) (of_Z 0)) in
   (numSquaresX st, numSquaresY st) = (of_Z 21, of_Z 16)) /\
  (let st := resizeCanvas browser_canvas_dim surface_768_306
               (instance_at "left" (decimal 384 1) (of_Z 7) (of_Z 0)) in
   js_div (canvas_width st) (squareSize st) = of_Z 20 /\
   numSquaresX st = of_Z 21) /\
  (let st := resizeCanvas browser_canvas_dim surface_768_306
               (instance_at "left" (decimal 102 1) (of_Z 7) (of_Z 0)) in
   js_lt (of_Z 30) (js_div (canvas_height st) (squareSize st)) = true /\
   numSquaresY st = of_Z 32 /\
   gridOffset st = {| px := of_Z 7; py := of_Z 0 |}).
Proof. repeat split; vm_compute; reflexivity. Qed.

(** *** The default speed and the floor *)

Lemma floor_of_default : math_max (of_Z 1) tenth = of_Z 1.
Proof. reflexivity. Qed.

Lemma above_floor_truthy (s : number) :
  js_le tenth s = true -> truthy_number s = true.
Proof. destruct s as [[ | ] | | | ]; first [reflexivity | discriminate]. Qed.

Lemma num_or_falsy (a : jsarg) (d : number) :
  truthy a = false -> num_or a d = d.
Proof.
  destruct a as [ | | | | x]; try reflexivity.
  cbn [truthy num_or]. intros ->. reflexivity.
Qed.

Lemma num_or_truthy (x d : number) :
  truthy_number x = true -> num_or (ArgNum x) d = x.
Proof. cbn [num_or]. intros ->. reflexivity. Qed.

Lemma offsetUpdates_speed (n : nat) :
  forall st : SquaresAnimation, speed (offsetUpdates n st) = speed st.
Proof.
  induction n as [ | n IH]; intros st; [reflexivity | ].
  cbn [offsetUpdates]. rewrite IH. reflexivity.
Qed.

(** The step of every update is the effective speed of the first. *)
Lemma steps_by_effectiveSpeed (st : SquaresAnimation) :
  steps_by (effectiveSpeed st) st.
Proof.
  intros n. unfold nextOffset, effectiveSpeed.
  rewrite offsetUpdates_speed. reflexivity.
Qed.

Section Construction.

Variable canvas_dim : number -> number.

(** What the constructor returns is the initialised instance, sized and
    moved by one offset update. *)
Lemma construct_returns (fuel : nat) (cv : canvas) (o : options) (dpr : jsarg)
    (r : rect) (raf : positive) (st : SquaresAnimation) :
  construct canvas_dim fuel cv o dpr r raf = Some st ->
  st = with_animationId (Some raf)
         (offsetUpdate (setupCanvas canvas_dim dpr r (initial cv o))).
Proof.
  unfold construct, startAnimation, updateAnimation.
  destruct (drawGrid fuel _); intros H; inversion H. reflexivity.
Qed.

(** C10, as amended.  The constructor replaces a speed of 0, and every
    other value that is false, by 1, and [Math.max(1, 0.1)] is 1: every
    offset update steps by 1.  Every other configured speed below 0.1,
    negative ones included, is kept and stepped by the floor 0.1; a speed
    of at least 0.1 is stepped by itself.  An instance the constructor
    returns has the speed so configured, its offset is one such step from
    [(0, 0)], and its later updates step alike. *)
Theorem speed_default_and_floor (cv : canvas) (o : options) :
  let this := initial cv o in
  (truthy (opt_speed o) = false ->
   speed this = of_Z 1 /\ effectiveSpeed this = of_Z 1 /\
   steps_by (of_Z 1) this) /\
  (forall s : number,
     opt_speed o = ArgNum s -> truthy_number s = true ->
     js_lt s tenth = true ->
     speed this = s /\ effectiveSpeed this = tenth /\
     steps_by tenth this) /\
  (forall s : number,
     opt_speed o = ArgNum s -> js_le tenth s = true ->
     speed this = s /\ effectiveSpeed this = s /\
     steps_by s this) /\
  (forall (fuel : nat) (dpr : jsarg) (r : rect) (raf : positive)
          (st : SquaresAnimation),
     construct canvas_dim fuel cv o dpr r raf = Some st ->
     speed st = speed this /\
     gridOffset st = nextOffset this /\
     steps_by (effectiveSpeed this) st).
Proof.
  cbv zeta. repeat apply conj.
  - intros Hf.
    assert (Hs : speed (initial cv o) = of_Z 1)
      by (cbn [speed initial]; apply num_or_falsy; exact Hf).
    assert (He : effectiveSpeed (initial cv o) = of_Z 1)
      by (unfold effectiveSpeed; rewrite Hs; exact floor_of_default).
    repeat split; try assumption.
    rewrite <- He. apply steps_by_effectiveSpeed.
  - intros s Ho Ht Hlt.
    assert (Hs : speed (initial cv o) = s)
      by (cbn [speed initial]; rewrite Ho; apply num_or_truthy; exact Ht).
    assert (He : effectiveSpeed (initial cv o) = tenth)
      by (unfold effectiveSpeed; rewrite Hs; exact (math_max_below s Hlt)).
    repeat split; try assumption.
    rewrite <- He. apply steps_by_effectiveSpeed.
  - intros s Ho Hle.
    assert (Hs : speed (initial cv o) = s).
    { cbn [speed initial]. rewrite Ho. apply num_or_truthy.
      apply above_floor_truthy. exact Hle. }
    assert (He : effectiveSpeed (initial cv o) = s)
      by (unfold effectiveSpeed; rewrite Hs; exact (math_max_above s Hle)).
    repeat split; try assumption.
    rewrite <- He. apply steps_by_effectiveSpeed.
  - intros fuel dpr r raf st Hc.
    rewrite (construct_returns _ _ _ _ _ _ _ Hc). repeat split.
    apply (steps_by_effectiveSpeed
             (with_animationId (Some raf)
                (offsetUpdate
                   (setupCanvas canvas_dim dpr r (initial cv o))))).
Qed.

End Construction.

(** Speeds of 0, 0.05 and -5 on the 800 x 600 surface: the constructor
    returns, with speeds 1, 0.05 and -5 and steps of 1, 0.1 and 0.1. *)
Lemma speed_default_and_floor_witness :
  (exists st,
     construct_on surface_800_600 100 zero_speed_options = Some st /\
     speed st = of_Z 1 /\
     gridOffset st = {| px := of_Z 1; py := of_Z 0 |} /\
     steps_by (of_Z 1) st) /\
  (exists st,
     construct_on surface_800_600 100 slow_speed_options = Some st /\
     speed st = decimal 5 2 /\
     steps_by tenth st).
Proof.
  pose proof (speed_default_and_floor browser_canvas_dim blank_canvas
                zero_speed_options) as (Hzero & _ & _ & Hbuilt0).
  pose proof (speed_default_and_floor browser_canvas_dim blank_canvas
                slow_speed_options) as (_ & Hslow & _ & Hbuilt1).
  specialize (Hzero eq_refl) as (Hs0 & He0 & _).
  specialize (Hslow (decimal 5 2) eq_refl eq_refl eq_refl) as (Hs1 & He1 & _).
  split.
  - destruct (construct_on surface_800_600 100 zero_speed_options)
      as [st | ] eqn:Hc; [ | vm_compute in Hc; discriminate Hc].
    exists st. split; [reflexivity | ].
    destruct (Hbuilt0 100%nat ArgUndefined surface_800_600 1%positive st Hc)
      as (Hs & Hg & Hsteps).
    rewrite Hs, Hg, Hs0. rewrite He0 in Hsteps.
    repeat split. exact Hsteps.
  - destruct (construct_on surface_800_600 100 slow_speed_options)
      as [st | ] eqn:Hc; [ | vm_compute in Hc; discriminate Hc].
    exists st. split; [reflexivity | ].
    destruct (Hbuilt1 100%nat ArgUndefined surface_800_600 1%positive st Hc)
      as (Hs & _ & Hsteps).
    rewrite Hs, Hs1. rewrite He1 in Hsteps.
    split; [reflexivity | exact Hsteps].
Defined.

(** C10 as stated fails: a configured speed of -5 is not positive, and the
    floor applies to it.  The first frame leaves the offset at
    [(0 + 0.1 + 40) % 40], which is 0.10000000000000142. *)
Lemma negative_speed_is_floored :
  exists st,
    construct_on surface_800_600 100 negative_speed_options = Some st /\
    speed st = of_Z (-5) /\
    js_lt (of_Z 0) (speed st) = false /\
    effectiveSpeed st = tenth /\
    gridOffset st
    = {| px := S754_finite false 7205759403792896 (-56); py := of_Z 0 |}.
Proof.
  eexists. split; [vm_compute; reflexivity | ].
  repeat split; vm_compute; reflexivity.
Qed.

(** *** A draw loop that does not end

    With a negative [squareSize] the loop variables only decrease, and the
    loop condition never fails: the constructor does not return. *)

Lemma iter_pos_invariant {A : Type} (P : A -> Prop) (f : A -> A) :
  (forall a, P a -> P (f a)) ->
  forall (p : positive) (a : A), P a -> P (SpecFloat.iter_pos f p a).
Proof.
  intros Hf. induction p as [p IH | p IH | ]; intros a Ha;
    cbn [SpecFloat.iter_pos]; auto.
Qed.

Lemma shr_1_nonneg (mrs : shr_record) : 0 <= shr_m mrs -> 0 <= shr_m (shr_1 mrs).
Proof.
  destruct mrs as [m r s]. cbn [shr_m].
  destruct m as [ | [q | q | ] | q]; cbn [shr_1 shr_m]; lia.
Qed.

Lemma shr_fexp_nonneg (m e : Z) (l : location) :
  0 <= m -> 0 <= shr_m (fst (shr_fexp prec emax m e l)).
Proof.
  intros Hm. unfold shr_fexp, shr.
  assert (H0 : 0 <= shr_m (shr_record_of_loc m l))
    by (destruct l as [ | [ | | ]]; exact Hm).
  destruct (fexp prec emax (Zdigits2 m + e) - e) as [ | p | p]; cbn [fst];
    try exact H0.
  apply (iter_pos_invariant (fun mrs => 0 <= shr_m mrs)); [ | exact H0].
  exact shr_1_nonneg.
Qed.

Lemma round_nearest_even_nonneg (m : Z) (l : location) :
  0 <= m -> 0 <= round_nearest_even m l.
Proof.
  intros Hm. destruct l as [ | [ | | ]]; cbn [round_nearest_even]; try lia.
  destruct (Z.even m); lia.
Qed.

(** Rounding keeps the sign: a negative sum is not positive after it. *)
Lemma binary_round_aux_sign (m e : Z) (l : location) :
  0 <= m -> nonpositive (binary_round_aux prec emax true m e l) = true.
Proof.
  intros Hm. unfold binary_round_aux.
  pose proof (shr_fexp_nonneg m e l Hm) as H1.
  destruct (shr_fexp prec emax m e l) as [mrs' e']. cbn [fst] in H1.
  pose proof (round_nearest_even_nonneg _ (loc_of_shr_record mrs') H1) as H2.
  pose proof (shr_fexp_nonneg _ e' loc_Exact H2) as H3.
  destruct (shr_fexp prec emax _ e' loc_Exact) as [mrs'' e''].
  cbn [fst] in H3.
  destruct (shr_m mrs'') as [ | q | q]; try lia; [reflexivity | ].
  destruct (Z.leb e'' (emax - prec)); reflexivity.
Qed.

Lemma js_add_nonpositive (v : number) (m : positive) (e : Z) :
  nonpositive v = true ->
  nonpositive (js_add v (S754_finite true m e)) = true.
Proof.
  destruct v as [s | s | | s mv ev]; cbn [nonpositive]; intros Hv;
    try discriminate; try reflexivity.
  - subst s. reflexivity.
  - subst s. unfold js_add.
    cbn [SFadd cond_Zopp].
    match goal with
    | |- context [(- Zpos ?a + - Zpos ?b)%Z] =>
        change (- Zpos a + - Zpos b)%Z with (Zneg (a + b))
    end.
    cbn [binary_normalize]. unfold binary_round.
    destruct (shl_align (_ + _)%positive _ _) as [mz ez].
    apply binary_round_aux_sign. lia.
Qed.

Lemma js_lt_nonpositive (v : number) (m : positive) (e : Z) :
  nonpositive v = true -> js_lt v (S754_finite false m e) = true.
Proof.
  destruct v as [s | s | | s mv ev]; cbn [nonpositive]; intros Hv;
    try discriminate; try subst s; reflexivity.
Qed.

(** A loop that starts at or below zero, steps down and runs under a
    positive bound uses up any fuel, whatever its body does. *)
Lemma for_loop_down {A : Type} (body : number -> option (list A))
    (mb ms : positive) (eb es : Z) (fuel : nat) :
  forall v : number,
    nonpositive v = true ->
    for_loop fuel v (S754_finite false mb eb) (S754_finite true ms es) body
    = None.
Proof.
  induction fuel as [ | fuel IH]; intros v Hv; [reflexivity | ].
  cbn [for_loop]. rewrite js_lt_nonpositive by exact Hv.
  destruct (body v); [ | reflexivity].
  rewrite IH by (apply js_add_nonpositive; exact Hv). reflexivity.
Qed.

(** [new SquaresAnimation(canvas, { squareSize: -40 })] does not return,
    however long it is given. *)
Lemma negative_squareSize_never_returns (fuel : nat) :
  construct_on surface_800_600 fuel negative_size_options = None.
Proof.
  unfold construct_on, construct, startAnimation, updateAnimation, drawGrid,
    grid_cells.
  set (st := offsetUpdate _).
  set (start := startX st).
  set (bound := js_add (canvas_width st) (squareSize st)).
  set (step := squareSize st).
  vm_compute in start, bound, step. subst start bound step.
  rewrite for_loop_down by reflexivity. reflexivity.
Qed.

End GridFacts.

(** ** Facts about the service worker *)

Module ServiceWorkerFacts.

Import ServiceWorker.
Local Open Scope Z_scope.
Local Open Scope string_scope.

(** *** The cache storage *)

Lemma generation_app (name : string) (cs cs' : CacheStorage) :
  generation name (cs ++ cs')%list =
  match generation name cs with
  | Some c => Some c
  | None => generation name cs'
  end.
Proof.
  induction cs as [| [n c] cs IH]; simpl; [reflexivity |].
  destruct (String.eqb n name); [reflexivity | exact IH].
Qed.

Lemma generation_open_same (name : string) (cs : CacheStorage) :
  generation name (storage_open name cs) =
  Some (default ∅ (generation name cs)).
Proof.
  unfold storage_open. destruct (generation name cs) as [c |] eqn:E.
  - rewrite E. reflexivity.
  - rewrite generation_app, E. simpl. rewrite String.eqb_refl. reflexivity.
Qed.

Lemma generation_open_other (name other : string) (cs : CacheStorage) :
  other <> name ->
  generation other (storage_open name cs) = generation other cs.
Proof.
  intros Hne. unfold storage_open. destruct (generation name cs); [reflexivity |].
  rewrite generation_app. destruct (generation other cs); [reflexivity |].
  simpl. destruct (String.eqb_spec name other); [congruence | reflexivity].
Qed.

Lemma generation_put_same (name key : string) (r : response) (cs : CacheStorage) :
  generation name (storage_put name key r cs) =
  (fun c => <[key := r]> c) <$> generation name cs.
Proof.
  induction cs as [| [n c] cs IH]; simpl; [reflexivity |].
  destruct (String.eqb n name) eqn:E; simpl; rewrite E; [reflexivity | exact IH].
Qed.

Lemma generation_put_other (name other key : string) (r : response)
    (cs : CacheStorage) :
  other <> name ->
  generation other (storage_put name key r cs) = generation other cs.
Proof.
  intros Hne. induction cs as [| [n c] cs IH]; simpl; [reflexivity |].
  destruct (String.eqb_spec n name) as [-> | Hn]; simpl.
  - destruct (String.eqb_spec name other); [congruence | exact IH].
  - destruct (String.eqb n other); [reflexivity | exact IH].
Qed.

Lemma storage_match_app (key : string) (cs cs' : CacheStorage) :
  storage_match key (cs ++ cs')%list =
  match storage_match key cs with
  | Some r => Some r
  | None => storage_match key cs'
  end.
Proof.
  induction cs as [| [n c] cs IH]; simpl; [reflexivity |].
  destruct (c !! key); [reflexivity | exact IH].
Qed.

(** Opening a generation does not change what the storage answers. *)
Lemma storage_match_open (name key : string) (cs : CacheStorage) :
  storage_match key (storage_open name cs) = storage_match key cs.
Proof.
  unfold storage_open. destruct (generation name cs); [reflexivity |].
  rewrite storage_match_app. simpl. rewrite lookup_empty.
  destruct (storage_match key cs); reflexivity.
Qed.

(** After a miss, a response put under the key is what the storage answers,
    provided the generation it was put in exists. *)
Lemma storage_match_put (name key : string) (r : response) (cs : CacheStorage) :
  is_Some (generation name cs) -> storage_match key cs = None ->
  storage_match key (storage_put name key r cs) = Some r.
Proof.
  induction cs as [| [n c] cs IH]; simpl; intros Hgen Hmiss.
  - destruct Hgen as [? Hgen]. discriminate.
  - destruct (c !! key) eqn:Ec; [discriminate |].
    destruct (String.eqb n name) eqn:En; simpl.
    + rewrite lookup_insert_eq. reflexivity.
    + rewrite Ec. apply IH; assumption.
Qed.

(** What the storage answers is stored under the key in some generation:
    in the first one tagged [name], or in one with another tag. *)
Lemma storage_match_source (name key : string) (cs : CacheStorage)
    (c : gmap string response) (r0 : response) :
  generation name cs = Some c -> c !! key = Some r0 ->
  exists r, storage_match key cs = Some r /\
    (r = r0 \/
     exists n c', In (n, c') cs /\ n <> name /\ c' !! key = Some r).
Proof.
  induction cs as [| [n c1] cs IH]; simpl; intros Hgen Hkey; [discriminate |].
  destruct (String.eqb_spec n name) as [-> | Hn].
  - injection Hgen as ->. rewrite Hkey. exists r0. split; [reflexivity | by left].
  - destruct (c1 !! key) as [r1 |] eqn:E1.
    + exists r1. split; [reflexivity |]. right. exists n, c1. auto.
    + destruct (IH Hgen Hkey) as [r [Hm Hsrc]]. exists r. split; [exact Hm |].
      destruct Hsrc as [-> | [n' [c' [Hin [Hne Hk]]]]]; [by left |].
      right. exists n', c'. auto.
Qed.

(** *** Activation *)

Lemma indexOf_whitelist (current name : string) :
  Z.eqb (indexOf [current] name) (-1) = negb (String.eqb current name).
Proof. simpl. destruct (String.eqb current name); reflexivity. Qed.

Lemma delete_stale_filter (current : string) (names : list string) :
  forall cs,
    delete_stale current names cs =
    List.filter
      (fun g => String.eqb current (fst g)
                || negb (existsb (String.eqb (fst g)) names)) cs.
Proof.
  induction names as [| n names IH]; intros cs; simpl.
  - rewrite <- (filter_ext (fun _ => true)).
    + induction cs as [| g cs IHcs]; simpl; [reflexivity | by rewrite <- IHcs].
    + intros g. by rewrite orb_true_r.
  - unfold delete_stale in *. rewrite IH.
    destruct (String.eqb_spec current n) as [<- | Hn].
    + apply filter_ext. intros g.
      destruct (String.eqb_spec current (fst g)) as [He | He]; [reflexivity |].
      simpl. destruct (String.eqb_spec (fst g) current); [congruence | reflexivity].
    + unfold storage_delete.
      induction cs as [| g cs IHcs]; simpl; [reflexivity |].
      destruct (String.eqb_spec (fst g) n) as [Hg | Hg]; simpl.
      * destruct (String.eqb_spec current (fst g)); [congruence | exact IHcs].
      * rewrite IHcs. reflexivity.
Qed.

Lemma delete_stale_keys (current : string) (cs : CacheStorage) :
  delete_stale current (storage_keys cs) cs = keep_only current cs.
Proof.
  rewrite delete_stale_filter. unfold keep_only.
  apply filter_ext_in. intros g Hin.
  assert (Hex : existsb (String.eqb (fst g)) (storage_keys cs) = true).
  { apply existsb_exists. exists (fst g). split.
    - unfold storage_keys. apply in_map. exact Hin.
    - apply String.eqb_refl. }
  rewrite Hex. simpl. rewrite orb_false_r. apply String.eqb_sym.
Qed.

Section Activation.

Variable CACHE_NAME : string.

(** The promises [activate] collects delete the stale tags one by one and
    never reject. *)
Lemma promise_all_deletes (names : list string) :
  forall w,
    exists l,
      promise_all
        (map (fun cacheName =>
                if Z.eqb (indexOf [CACHE_NAME] cacheName) (-1)
                then (await b <~ caches_delete cacheName in resolve (Some b))
                else resolve None)
             names) w
      = (Fulfilled l,
         {| caches := delete_stale CACHE_NAME names (caches w);
            fetched := fetched w |}).
Proof.
  induction names as [| n names IH]; intros w.
  - exists []. destruct w. reflexivity.
  - cbn [map promise_all]. rewrite indexOf_whitelist.
    destruct (String.eqb CACHE_NAME n) eqn:E; cbn [negb].
    + destruct (IH w) as [l Hl]. exists (None :: l).
      unfold then_ at 1. unfold resolve at 1. unfold then_ at 1. rewrite Hl.
      unfold resolve. cbn [delete_stale fold_left]. rewrite E. reflexivity.
    + set (w1 := {| caches := storage_delete n (caches w);
                    fetched := fetched w |}).
      destruct (IH w1) as [l Hl].
      exists (Some (bool_decide (is_Some (generation n (caches w)))) :: l).
      unfold then_ at 1. unfold then_ at 1. unfold caches_delete at 1.
      unfold resolve at 1. fold w1. unfold then_ at 1. rewrite Hl.
      unfold resolve. cbn [delete_stale fold_left]. rewrite E. reflexivity.
Qed.

Lemma on_activate_world (w : world) :
  exists l,
    on_activate CACHE_NAME w
    = (Fulfilled l,
       {| caches := keep_only CACHE_NAME (caches w); fetched := fetched w |}).
Proof.
  unfold on_activate. unfold then_ at 1. unfold caches_keys.
  destruct (promise_all_deletes (storage_keys (caches w)) w) as [l Hl].
  exists l. rewrite Hl, delete_stale_keys. reflexivity.
Qed.

Lemma keep_only_idempotent (cs : CacheStorage) :
  keep_only CACHE_NAME (keep_only CACHE_NAME cs) = keep_only CACHE_NAME cs.
Proof.
  unfold keep_only. induction cs as [| g cs IH]; simpl; [reflexivity |].
  destruct (String.eqb (fst g) CACHE_NAME) eqn:E; simpl.
  - rewrite E, IH. reflexivity.
  - exact IH.
Qed.

Lemma keep_only_all_current (cs : CacheStorage) :
  Forall (fun g => fst g = CACHE_NAME) cs -> keep_only CACHE_NAME cs = cs.
Proof.
  unfold keep_only. induction 1 as [| g cs Hg _ IH]; simpl; [reflexivity |].
  rewrite Hg, String.eqb_refl, IH. reflexivity.
Qed.

Lemma generation_keep_only_current (cs : CacheStorage) :
  generation CACHE_NAME (keep_only CACHE_NAME cs) = generation CACHE_NAME cs.
Proof.
  unfold keep_only. induction cs as [| [n c] cs IH]; simpl; [reflexivity |].
  destruct (String.eqb n CACHE_NAME) eqn:E; simpl; rewrite ?E; [reflexivity | exact IH].
Qed.

Lemma generation_keep_only_stale (name : string) (cs : CacheStorage) :
  name <> CACHE_NAME -> generation name (keep_only CACHE_NAME cs) = None.
Proof.
  intros Hne. unfold keep_only.
  induction cs as [| [n c] cs IH]; simpl; [reflexivity |].
  destruct (String.eqb_spec n CACHE_NAME) as [-> | Hn]; simpl; [| exact IH].
  destruct (String.eqb_spec CACHE_NAME name); [congruence | exact IH].
Qed.

(** C4: activation fulfils and leaves exactly the generations tagged with
    the current version, each with its entries untouched, in their order:
    every generation with another tag is gone, nothing else is deleted, and
    the network is not used.  Activating again changes nothing, and a store
    holding only the current tag is left as it is. *)
Theorem activate_keeps_only_current (w : world) :
  let w' := snd (on_activate CACHE_NAME w) in
  (exists l, fst (on_activate CACHE_NAME w) = Fulfilled l) /\
  caches w' = keep_only CACHE_NAME (caches w) /\
  fetched w' = fetched w /\
  (forall name, name <> CACHE_NAME -> generation name (caches w') = None) /\
  (forall g, In g (caches w') <-> In g (caches w) /\ fst g = CACHE_NAME) /\
  generation CACHE_NAME (caches w') = generation CACHE_NAME (caches w) /\
  snd (on_activate CACHE_NAME w') = w' /\
  (Forall (fun g => fst g = CACHE_NAME) (caches w) -> w' = w).
Proof.
  cbv zeta. destruct (on_activate_world w) as [l Hl]. rewrite Hl. simpl.
  split; [by exists l |]. split; [reflexivity |]. split; [reflexivity |].
  split; [intros name Hne; by apply generation_keep_only_stale |].
  split.
  { intros g. unfold keep_only. rewrite filter_In.
    destruct (String.eqb_spec (fst g) CACHE_NAME); intuition congruence. }
  split; [apply generation_keep_only_current |].
  split.
  - destruct (on_activate_world
                {| caches := keep_only CACHE_NAME (caches w);
                   fetched := fetched w |}) as [l' Hl'].
    rewrite Hl'. simpl. rewrite keep_only_idempotent. reflexivity.
  - intros Hall. rewrite (keep_only_all_current _ Hall). destruct w. reflexivity.
Qed.

End Activation.

Lemma activate_keeps_only_current_witness :
  let w' := snd (on_activate "v3" three_generations) in
  storage_keys (caches three_generations) = ["v1"; "v2"; "v3"] /\
  storage_keys (caches w') = ["v3"] /\
  generation "v1" (caches w') = None /\
  generation "v3" (caches w') = generation "v3" (caches three_generations) /\
  snd (on_activate "v3" w') = w'.
Proof.
  pose proof (activate_keeps_only_current "v3" three_generations) as H.
  cbv zeta in *. destruct H as [_ [Hc [_ [Hstale [_ [Hcur [Hidem _]]]]]]].
  split; [reflexivity |].
  split; [rewrite Hc; reflexivity |].
  split; [apply Hstale; discriminate |].
  split; [exact Hcur | exact Hidem].
Defined.

(** *** Interception *)

Section Interception.

Variable CACHE_NAME : string.
Variable self_origin : string.
Variable net : string -> fetch_result.

Lemma bypassed_not_intercepted (req : request) :
  bypassed self_origin req ->
  String.eqb (method req) "GET" = false \/
  isAllowedOrigin self_origin req = false.
Proof.
  intros [Hm | [Ho [H1 [H2 H3]]]].
  - left. destruct (String.eqb_spec (method req) "GET"); [contradiction | reflexivity].
  - right. unfold isAllowedOrigin. rewrite H1, H2, H3.
    destruct (String.eqb_spec (origin req) self_origin); [contradiction | reflexivity].
Qed.

Lemma on_fetch_bypass (req : request) (w : world) :
  bypassed self_origin req -> on_fetch CACHE_NAME self_origin net req w = (PassThrough, w).
Proof.
  intros Hb. unfold on_fetch.
  destruct (bypassed_not_intercepted req Hb) as [-> | ->]; simpl; [reflexivity |].
  destruct (String.eqb (method req) "GET"); reflexivity.
Qed.

(** C5: a request that is not a GET, or whose origin is neither the
    worker's own nor a host whose name contains googleapis.com, gstatic.com
    or fontawesome.com, is passed through without [respondWith]; the world
    (every generation of the cache store, and the network log) is exactly
    as before, after one such request and after any series of them. *)
Theorem bypassed_requests_leave_store_untouched
    (reqs : list request) (w : world) :
  Forall (bypassed self_origin) reqs ->
  Forall (fun req => on_fetch CACHE_NAME self_origin net req w = (PassThrough, w)) reqs /\
  intercept_all CACHE_NAME self_origin net reqs w = w.
Proof.
  intros Hall. split.
  - eapply Forall_impl; [exact Hall |]. intros req Hb. by apply on_fetch_bypass.
  - unfold intercept_all. induction Hall as [| req reqs Hb _ IH]; simpl.
    + reflexivity.
    + rewrite (on_fetch_bypass req w Hb). exact IH.
Qed.

Lemma on_fetch_hit (req : request) (w : world) (r : response) :
  method req = "GET" -> isAllowedOrigin self_origin req = true ->
  storage_match (url req) (caches w) = Some r ->
  on_fetch CACHE_NAME self_origin net req w = (RespondWith (Fulfilled (Some r)), w).
Proof.
  intros Hm Ha Hhit. unfold on_fetch. rewrite Hm, Ha. simpl.
  unfold then_, caches_match. rewrite Hhit. reflexivity.
Qed.

Lemma on_fetch_miss (req : request) (w : world) :
  method req = "GET" -> isAllowedOrigin self_origin req = true ->
  storage_match (url req) (caches w) = None ->
  on_fetch CACHE_NAME self_origin net req w =
  (RespondWith (fst (fetch_and_cache CACHE_NAME net req w)), snd (fetch_and_cache CACHE_NAME net req w)).
Proof.
  intros Hm Ha Hmiss. unfold on_fetch. rewrite Hm, Ha. simpl.
  unfold then_ at 1. unfold caches_match. rewrite Hmiss.
  destruct (fetch_and_cache CACHE_NAME net req w). reflexivity.
Qed.

Lemma fetch_and_cache_error (req : request) (w : world) :
  net (url req) = NetworkError ->
  fetch_and_cache CACHE_NAME net req w = (Rejected, logged (url req) w).
Proof.
  intros Hn. unfold fetch_and_cache, then_, fetch.
  rewrite Hn. reflexivity.
Qed.

Lemma fetch_and_cache_absent (req : request) (w : world) :
  net (url req) = Resolves None ->
  fetch_and_cache CACHE_NAME net req w = (Fulfilled None, logged (url req) w).
Proof.
  intros Hn. unfold fetch_and_cache, then_, fetch.
  rewrite Hn. reflexivity.
Qed.

Lemma fetch_and_cache_skip (req : request) (w : world) (r : response) :
  net (url req) = Resolves (Some r) -> ~ cacheable r ->
  fetch_and_cache CACHE_NAME net req w = (Fulfilled (Some r), logged (url req) w).
Proof.
  intros Hn Hc. unfold fetch_and_cache. unfold then_ at 1.
  unfold fetch. rewrite Hn.
  destruct (Z.eqb_spec (status r) 200) as [Hs | Hs]; simpl; [| reflexivity].
  destruct (type r) eqn:Ht; try reflexivity;
    exfalso; apply Hc; (split; [exact Hs | rewrite Ht; discriminate]).
Qed.

Lemma fetch_and_cache_store (req : request) (w : world) (r : response) :
  net (url req) = Resolves (Some r) -> cacheable r ->
  fetch_and_cache CACHE_NAME net req w =
  (Fulfilled (Some r),
   {| caches :=
        storage_put CACHE_NAME (url req) r (storage_open CACHE_NAME (caches w));
      fetched := (fetched w ++ [url req])%list |}).
Proof.
  intros Hn [Hs Ht]. unfold fetch_and_cache. unfold then_ at 1.
  unfold fetch. rewrite Hn, Hs. simpl.
  destruct (type r); try contradiction; reflexivity.
Qed.

(** C2 (as amended): for a GET to an allow-listed origin whose key is
    stored in the current generation, the handler answers with the response
    the store-wide lookup finds under that key, without a network fetch and
    without changing the store; that response is the current generation's
    own unless a generation with another tag holds the key too.  Issuing
    the same GET twice performs at most one network fetch, and the second is
    a cache hit, provided the key is already stored or the network answers
    the first with a response that is stored (status 200, not opaque). *)
Theorem cache_hit_skips_network (req : request) (w : world) :
  method req = "GET" -> isAllowedOrigin self_origin req = true ->
  (forall c r0,
      generation CACHE_NAME (caches w) = Some c -> c !! url req = Some r0 ->
      exists r,
        on_fetch CACHE_NAME self_origin net req w
        = (RespondWith (Fulfilled (Some r)), w) /\
        storage_match (url req) (caches w) = Some r /\
        (r = r0 \/
         exists n c', In (n, c') (caches w) /\ n <> CACHE_NAME /\
                      c' !! url req = Some r)) /\
  (is_Some (storage_match (url req) (caches w)) \/
   (exists r, net (url req) = Resolves (Some r) /\ cacheable r) ->
   let w1 := snd (on_fetch CACHE_NAME self_origin net req w) in
   let w2 := snd (on_fetch CACHE_NAME self_origin net req w1) in
   (exists l, fetched w2 = (fetched w ++ l)%list /\ (length l <= 1)%nat) /\
   (exists r, fst (on_fetch CACHE_NAME self_origin net req w1)
              = RespondWith (Fulfilled (Some r))) /\
   w2 = w1).
Proof.
  intros Hm Ha. split.
  - intros c r0 Hgen Hkey.
    destruct (storage_match_source CACHE_NAME (url req) (caches w) c r0 Hgen Hkey)
      as [r [Hr Hsrc]].
    exists r. split; [by apply on_fetch_hit |]. split; assumption.
  - cbv zeta. intros [[r Hhit] | [r [Hnet Hc]]].
    + rewrite !(on_fetch_hit req w r Hm Ha Hhit). simpl.
      rewrite !(on_fetch_hit req w r Hm Ha Hhit). simpl.
      split; [exists []; split; [by rewrite app_nil_r | simpl; lia] |].
      split; [by exists r | reflexivity].
    + destruct (storage_match (url req) (caches w)) as [r' |] eqn:Hlook.
      * rewrite !(on_fetch_hit req w r' Hm Ha Hlook). simpl.
        rewrite !(on_fetch_hit req w r' Hm Ha Hlook). simpl.
        split; [exists []; split; [by rewrite app_nil_r | simpl; lia] |].
        split; [by exists r' | reflexivity].
      * rewrite (on_fetch_miss req w Hm Ha Hlook).
        rewrite (fetch_and_cache_store req w r Hnet Hc). simpl.
        set (w1 := {| caches := storage_put CACHE_NAME (url req) r
                                  (storage_open CACHE_NAME (caches w));
                      fetched := (fetched w ++ [url req])%list |}).
        assert (Hhit1 : storage_match (url req) (caches w1) = Some r).
        { simpl. apply storage_match_put.
          - rewrite generation_open_same. by eexists.
          - by rewrite storage_match_open. }
        rewrite !(on_fetch_hit req w1 r Hm Ha Hhit1). simpl.
        split; [exists [url req]; split; [reflexivity | simpl; lia] |].
        split; [by exists r | reflexivity].
Qed.

(** C6 (as amended): on a cache miss the handler performs exactly one
    network fetch.  A rejected fetch rejects the answer; an absent response,
    a response whose status is not 200, and an opaque response are returned
    as they are and nothing is stored; a response with status 200 that is
    not opaque is returned and stored under the request key in the current
    generation (created if missing), every other entry and generation
    staying as it was. *)
Theorem miss_fetches_and_stores_status_200 (req : request) (w : world) :
  method req = "GET" -> isAllowedOrigin self_origin req = true ->
  storage_match (url req) (caches w) = None ->
  let d := fst (on_fetch CACHE_NAME self_origin net req w) in
  let w' := snd (on_fetch CACHE_NAME self_origin net req w) in
  fetched w' = (fetched w ++ [url req])%list /\
  (net (url req) = NetworkError ->
   d = RespondWith Rejected /\ caches w' = caches w) /\
  (net (url req) = Resolves None ->
   d = RespondWith (Fulfilled None) /\ caches w' = caches w) /\
  (forall r, net (url req) = Resolves (Some r) -> ~ cacheable r ->
   d = RespondWith (Fulfilled (Some r)) /\ caches w' = caches w) /\
  (forall r, net (url req) = Resolves (Some r) -> cacheable r ->
   d = RespondWith (Fulfilled (Some r)) /\
   generation CACHE_NAME (caches w')
   = Some (<[url req := r]> (default ∅ (generation CACHE_NAME (caches w)))) /\
   (forall other, other <> CACHE_NAME ->
                  generation other (caches w') = generation other (caches w)) /\
   storage_match (url req) (caches w') = Some r).
Proof.
  intros Hm Ha Hmiss. cbv zeta. rewrite (on_fetch_miss req w Hm Ha Hmiss). simpl.
  split.
  { destruct (net (url req)) as [| [r |]] eqn:Hn.
    - by rewrite (fetch_and_cache_error req w Hn).
    - destruct (Z.eqb_spec (status r) 200) as [Hs | Hs].
      + destruct (type r) eqn:Ht;
          try (rewrite (fetch_and_cache_store req w r Hn); [reflexivity |];
               split; [assumption | rewrite Ht; discriminate]).
        rewrite (fetch_and_cache_skip req w r Hn); [reflexivity |].
        intros [_ Hop]. contradiction.
      + rewrite (fetch_and_cache_skip req w r Hn); [reflexivity |].
        intros [Hs' _]. contradiction.
    - by rewrite (fetch_and_cache_absent req w Hn). }
  split; [intros Hn; by rewrite (fetch_and_cache_error req w Hn) |].
  split; [intros Hn; by rewrite (fetch_and_cache_absent req w Hn) |].
  split; [intros r Hn Hc; by rewrite (fetch_and_cache_skip req w r Hn Hc) |].
  intros r Hn Hc. rewrite (fetch_and_cache_store req w r Hn Hc). simpl.
  split; [reflexivity |]. split; [| split].
  - rewrite generation_put_same, generation_open_same. reflexivity.
  - intros other Hne.
    rewrite generation_put_other, generation_open_other by assumption.
    reflexivity.
  - apply storage_match_put.
    + rewrite generation_open_same. by eexists.
    + by rewrite storage_match_open.
Qed.

End Interception.

Lemma bypassed_requests_leave_store_untouched_witness :
  Forall (fun req =>
            on_fetch CACHE_NAME_deployed site_origin always_200 req
                     three_generations
            = (PassThrough, three_generations))
         [form_post; presence_poll] /\
  intercept_all CACHE_NAME_deployed site_origin always_200
    [form_post; presence_poll] three_generations = three_generations.
Proof.
  apply bypassed_requests_leave_store_untouched.
  constructor; [left; discriminate |].
  constructor; [| constructor].
  right. repeat split; [discriminate | reflexivity ..].
Defined.

Lemma cache_hit_skips_network_witness :
  let w1 := snd (on_fetch CACHE_NAME_deployed site_origin always_200
                          stylesheet empty_world) in
  let w2 := snd (on_fetch CACHE_NAME_deployed site_origin always_200
                          stylesheet w1) in
  (exists l, fetched w2 = (fetched empty_world ++ l)%list /\
             (length l <= 1)%nat) /\
  (exists r, fst (on_fetch CACHE_NAME_deployed site_origin always_200
                           stylesheet w1)
             = RespondWith (Fulfilled (Some r))) /\
  w2 = w1.
Proof.
  apply (cache_hit_skips_network CACHE_NAME_deployed site_origin always_200
           stylesheet empty_world).
  - reflexivity.
  - reflexivity.
  - right. exists (page_response (url stylesheet)). split; [reflexivity |].
    split; [reflexivity | discriminate].
Defined.

(** C2 as stated fails when the answer is not stored: the same GET for a
    page that answers 404, issued twice on an empty store, reaches the
    network twice. *)
Lemma not_found_is_fetched_twice :
  method missing_page = "GET" /\
  isAllowedOrigin site_origin missing_page = true /\
  fetched
    (snd (on_fetch CACHE_NAME_deployed site_origin always_404 missing_page
            (snd (on_fetch CACHE_NAME_deployed site_origin always_404
                    missing_page empty_world))))
  = [url missing_page; url missing_page].
Proof. repeat split. Qed.

Lemma miss_fetches_and_stores_status_200_witness :
  let d := fst (on_fetch CACHE_NAME_deployed site_origin always_200
                         stylesheet three_generations) in
  let w' := snd (on_fetch CACHE_NAME_deployed site_origin always_200
                          stylesheet three_generations) in
  d = RespondWith (Fulfilled (Some (page_response (url stylesheet)))) /\
  generation CACHE_NAME_deployed (caches w')
  = Some {[ url stylesheet := page_response (url stylesheet) ]} /\
  storage_match (url stylesheet) (caches w')
  = Some (page_response (url stylesheet)).
Proof.
  pose proof (miss_fetches_and_stores_status_200 CACHE_NAME_deployed
                site_origin always_200 stylesheet three_generations
                eq_refl eq_refl eq_refl) as H.
  cbv zeta in *. destruct H as [_ [_ [_ [_ H]]]].
  destruct (H (page_response (url stylesheet)) eq_refl) as [Hd [Hg [_ Hs]]].
  - split; [reflexivity | discriminate].
  - split; [exact Hd |]. split; [| exact Hs].
    rewrite Hg. reflexivity.
Defined.

(** C6 as stated fails for a successful status other than 200: a 204
    answer to a same-origin GET is an ok, non-opaque response, and it is
    returned without being stored. *)
Lemma no_content_is_not_stored :
  let r := {| status := 204; type := Basic; body := "" |} in
  let w' := snd (on_fetch CACHE_NAME_deployed site_origin always_204
                          stylesheet empty_world) in
  storage_match (url stylesheet) (caches empty_world) = None /\
  net_answer always_204 stylesheet = Some r /\
  ok_status (status r) = true /\ type r <> Opaque /\
  fst (on_fetch CACHE_NAME_deployed site_origin always_204
                stylesheet empty_world)
  = RespondWith (Fulfilled (Some r)) /\
  caches w' = [] /\
  storage_match (url stylesheet) (caches w') = None.
Proof. cbv zeta. repeat split; discriminate. Qed.

(** *** Installation *)

Section Installation.

Variable CACHE_NAME : string.
Variable net : string -> fetch_result.

Lemma seed_responses_fail (urls : list string) :
  (exists u, In u urls /\ seed_response (net u) = None) ->
  seed_responses net urls = None.
Proof.
  induction urls as [| u0 urls IH]; intros [u [Hin Hfail]].
  - contradiction.
  - simpl. destruct Hin as [-> | Hin].
    + rewrite Hfail. reflexivity.
    + rewrite IH by (exists u; auto).
      destruct (seed_response (net u0)); reflexivity.
Qed.

Lemma on_install_failure (w : world) :
  (exists u, In u urlsToCache /\ seed_response (net u) = None) ->
  on_install CACHE_NAME net w
  = (Rejected,
     {| caches := storage_open CACHE_NAME (caches w);
        fetched := (fetched w ++ urlsToCache)%list |}).
Proof.
  intros Hfail. unfold on_install, then_, caches_open, cache_addAll.
  cbn [caches fetched]. rewrite (seed_responses_fail urlsToCache Hfail).
  reflexivity.
Qed.

(** C3: when the fetch of any manifest URL fails, the promise the install
    handler waits on rejects; no manifest entry is written: the only change
    to the store is that an empty generation with the current tag exists if
    none did, every generation keeps its entries and the store answers every
    key as before; the worker becomes redundant instead of installed, so it
    is never activated and the older generations are not deleted. *)
Theorem failed_seed_fetch_fails_install (w : world) :
  (exists u, In u urlsToCache /\ seed_response (net u) = None) ->
  let w' := snd (on_install CACHE_NAME net w) in
  fst (on_install CACHE_NAME net w) = Rejected /\
  caches w' = storage_open CACHE_NAME (caches w) /\
  generation CACHE_NAME (caches w')
  = Some (default ∅ (generation CACHE_NAME (caches w))) /\
  (forall other, other <> CACHE_NAME ->
                 generation other (caches w') = generation other (caches w)) /\
  (forall key, storage_match key (caches w') = storage_match key (caches w)) /\
  install_event CACHE_NAME net w = (Redundant, w') /\
  deploy CACHE_NAME net w = (Redundant, w').
Proof.
  intros Hfail. cbv zeta. unfold deploy, install_event.
  rewrite (on_install_failure w Hfail). simpl.
  split; [reflexivity |]. split; [reflexivity |].
  split; [apply generation_open_same |].
  split; [intros other Hne; by apply generation_open_other |].
  split; [intros key; apply storage_match_open |].
  split; reflexivity.
Qed.

End Installation.

Lemma failed_seed_fetch_fails_install_witness :
  let w' := snd (on_install CACHE_NAME_deployed one_unreachable
                            three_generations) in
  fst (on_install CACHE_NAME_deployed one_unreachable three_generations)
  = Rejected /\
  storage_keys (caches w') = ["v1"; "v2"; "v3"; CACHE_NAME_deployed] /\
  generation CACHE_NAME_deployed (caches w') = Some ∅ /\
  deploy CACHE_NAME_deployed one_unreachable three_generations
  = (Redundant, w').
Proof.
  pose proof (failed_seed_fetch_fails_install CACHE_NAME_deployed
                one_unreachable three_generations) as H.
  cbv zeta in *.
  destruct H as [Hrej [Hc [Hg [_ [_ [_ Hd]]]]]].
  { exists "/spiral-animation.js". split; [| reflexivity].
    unfold urlsToCache. simpl. tauto. }
  split; [exact Hrej |]. split; [rewrite Hc; reflexivity |].
  split; [rewrite Hg; reflexivity | exact Hd].
Defined.

(** On a network that serves every asset, the same deployment installs the
    whole manifest, activates, and leaves the new generation alone. *)
Lemma successful_deploy_example :
  let w' := snd (deploy CACHE_NAME_deployed always_200 three_generations) in
  fst (deploy CACHE_NAME_deployed always_200 three_generations) = Activated /\
  storage_keys (caches w') = [CACHE_NAME_deployed] /\
  Forall (fun u => storage_match u (caches w') = Some (page_response u))
         urlsToCache /\
  fetched w' = urlsToCache.
Proof.
  cbv zeta. split; [reflexivity |]. split; [reflexivity |].
  split; [| reflexivity].
  unfold urlsToCache. repeat constructor.
Qed.

End ServiceWorkerFacts.
